(** * salty-jabber: the content script [content.js]

    A shallow embedding of the change-observation and filtering code of
    [content.js], followed by the properties proved about it.

    - The document is a tree of [node]s.  Every node carries an identity
      [nid]; the only part of a node the script writes is
      [style.display], kept in a store indexed by node identity, so that
      the in-place writes of [forEach] loops are sequenced as in the
      source.
    - JavaScript numbers are [number]: [NaN], the two infinities and the
      finite values.  Finite values are kept as exact rationals; rounding
      to binary64 is not modelled.
    - Closures with private mutable variables ([previousUrl], [timer],
      the promise of [waitForElement]) become explicit states with a
      transition function per callback.
    - Time is discrete; timers fire when the elapsed time reaches their
      delay. *)

From Stdlib Require Import Ascii QArith.
From stdpp Require Import gmap strings list.

Local Open Scope Z_scope.

(** ** JavaScript values *)

Inductive number :=
| NaN
| Finite (q : Q)
| Infinity (negative : bool).

(** [a <= b] on numbers: false as soon as an operand is [NaN]. *)
Definition num_le (a b : number) : bool :=
  match a, b with
  | NaN, _ | _, NaN => false
  | Finite p, Finite q => Qle_bool p q
  | Finite _, Infinity negative => negb negative
  | Infinity negative, Finite _ => negative
  | Infinity na, Infinity nb => na || negb nb
  end.

Definition isNaN (a : number) : bool :=
  match a with NaN => true | _ => false end.

(** The values a budget can take: [null], [undefined] or a number. *)
Inductive jsvalue :=
| Null
| Undefined
| Num (n : number).

(** ** Strings: [String.prototype.replace] and [parseFloat] *)

(** [s.replace(pat, repl)] with a string pattern: the first occurrence
    only. *)
Definition replace (pat repl s : string) : string :=
  match String.index 0 pat s with
  | Some i =>
      String.substring 0 i s +:+ repl
        +:+ String.substring (i + String.length pat) (String.length s) s
  | None => s
  end.

Definition is_digit (c : ascii) : bool :=
  let n := nat_of_ascii c in (48 <=? n)%nat && (n <=? 57)%nat.

Definition is_space (c : ascii) : bool :=
  let n := nat_of_ascii c in ((9 <=? n)%nat && (n <=? 13)%nat) || (n =? 32)%nat.

Fixpoint skip_spaces (s : string) : string :=
  match s with
  | String c r => if is_space c then skip_spaces r else s
  | EmptyString => s
  end.

(** The longest run of decimal digits at the head of [s], and the rest. *)
Fixpoint take_digits (s : string) : list ascii * string :=
  match s with
  | String c r =>
      if is_digit c then let '(ds, rest) := take_digits r in (c :: ds, rest)
      else ([], s)
  | EmptyString => ([], s)
  end.

Definition digits_value (ds : list ascii) : Z :=
  foldl (fun acc c => 10 * acc + (Z.of_nat (nat_of_ascii c) - 48)) 0 ds.

Definition take_sign (s : string) : bool * string :=
  match s with
  | String "+" r => (false, r)
  | String "-" r => (true, r)
  | _ => (false, s)
  end.

(** [m * 10^e] as a rational. *)
Definition scale10 (m e : Z) : Q :=
  if 0 <=? e then Qmake (m * 10 ^ e) 1 else Qmake m (Z.to_pos (10 ^ (- e))).

(** [parseFloat(s)]: leading white space is dropped, then the longest
    prefix that is a decimal literal (sign, [Infinity] or digits with an
    optional fraction and exponent) is read; [NaN] when there is none. *)
Definition parseFloat (s : string) : number :=
  let '(negative, s1) := take_sign (skip_spaces s) in
  if String.prefix "Infinity" s1 then Infinity negative
  else
    let '(ip, r1) := take_digits s1 in
    let '(fp, r2) :=
      match r1 with
      | String "." r => take_digits r
      | _ => ([], r1)
      end in
    match ip ++ fp with
    | [] => NaN
    | ds =>
        let e :=
          match r2 with
          | String c r =>
              if (Ascii.eqb c "e" || Ascii.eqb c "E")%bool then
                let '(eneg, r3) := take_sign r in
                match take_digits r3 with
                | ([], _) => 0
                | (es, _) => if eneg then - digits_value es else digits_value es
                end
              else 0
          | EmptyString => 0
          end in
        let m := digits_value ds in
        Finite (scale10 (if negative then - m else m) (e - Z.of_nat (length fp)))
    end.

(** [s.split(sep)] for a separator of one character: the pieces between
    the occurrences of [sep], in order; never empty. *)
Fixpoint split (sep : ascii) (s : string) : list string :=
  match s with
  | EmptyString => [EmptyString]
  | String c r =>
      if Ascii.eqb c sep then EmptyString :: split sep r
      else match split sep r with
           | piece :: pieces => String c piece :: pieces
           | [] => [String c EmptyString]
           end
  end.

Definition hex_digit_value (c : ascii) : option Z :=
  let n := nat_of_ascii c in
  if (48 <=? n)%nat && (n <=? 57)%nat then Some (Z.of_nat n - 48)
  else if (97 <=? n)%nat && (n <=? 102)%nat then Some (Z.of_nat n - 87)
  else if (65 <=? n)%nat && (n <=? 70)%nat then Some (Z.of_nat n - 55)
  else None.

(** The value of the longest run of hexadecimal digits at the head of
    [s], after [acc]; [None] when [s] does not start with one and
    nothing was read before. *)
Fixpoint take_hex (s : string) (acc : option Z) : option Z :=
  match s with
  | String c r =>
      match hex_digit_value c with
      | Some d => take_hex r (Some (16 * default 0 acc + d))
      | None => acc
      end
  | EmptyString => acc
  end.

(** [s] starts with [0x] or [0X]; and [s] without its first two
    characters. *)
Definition has_hex_prefix (s : string) : bool :=
  match s with
  | String a (String b _) =>
      Ascii.eqb a "0" && (Ascii.eqb b "x" || Ascii.eqb b "X")
  | _ => false
  end.

Definition drop2 (s : string) : string :=
  match s with
  | String _ (String _ r) => r
  | _ => EmptyString
  end.

(** [parseInt(s)] without a radix: leading white space and a sign are
    dropped; after a prefix [0x] or [0X] hexadecimal digits are read,
    otherwise decimal digits; [NaN] when there is no digit. *)
Definition parseInt (s : string) : number :=
  let '(negative, s1) := take_sign (skip_spaces s) in
  let magnitude :=
    if has_hex_prefix s1 then take_hex (drop2 s1) None
    else match take_digits s1 with
         | ([], _) => None
         | (ds, _) => Some (digits_value ds)
         end in
  match magnitude with
  | Some m => Finite (inject_Z (if negative then - m else m))
  | None => NaN
  end.

(** ** The document tree *)

Inductive node_type := ELEMENT_NODE | TEXT_NODE | DOCUMENT_NODE.

#[local] Unset Elimination Schemes.
Inductive node := Node {
  nid : nat;
  nodeType : node_type;
  localName : string;
  classList : list string;
  innerText : string;
  childNodes : list node
}.
#[local] Set Elimination Schemes.

(** Induction on the tree, with the hypothesis for every child. *)
Definition node_tree_ind (P : node -> Prop)
    (step : forall i t name cls text kids,
        Forall P kids -> P (Node i t name cls text kids)) : forall n, P n :=
  fix go (n : node) : P n :=
    match n with
    | Node i t name cls text kids =>
        step i t name cls text kids
          ((fix all (l : list node) : Forall P l :=
              match l with
              | [] => @List.Forall_nil _ P
              | k :: r => @List.Forall_cons _ P k r (go k) (all r)
              end) kids)
    end.

(** The proper descendants of a node, in document order. *)
Fixpoint descendants (n : node) : list node :=
  match n with
  | Node _ _ _ _ _ kids => flat_map (fun k => k :: descendants k) kids
  end.

Definition is_element (n : node) : bool :=
  match nodeType n with ELEMENT_NODE => true | _ => false end.

(** The selectors the filter uses: a type selector or a class selector. *)
Inductive selector :=
| SelType (name : string)
| SelClass (cls : string).

Definition matches (sel : selector) (n : node) : bool :=
  is_element n &&
  match sel with
  | SelType name => String.eqb (localName n) name
  | SelClass cls => bool_decide (cls ∈ classList n)
  end.

Definition querySelectorAll (sel : selector) (n : node) : list node :=
  filter (fun e => matches sel e) (descendants n).

Definition querySelector (sel : selector) (n : node) : option node :=
  head (querySelectorAll sel n).

(** [style.display] of every node, by node identity; a node without an
    entry has the empty string. *)
Definition display (σ : gmap nat string) (n : node) : string :=
  default "" (σ !! nid n).

Definition set_display (n : node) (v : string) (σ : gmap nat string) : gmap nat string :=
  <[nid n := v]> σ.

(** The shape of a page: node identities are not shared, and no product
    item is itself a product container. *)
Definition distinct_ids (document : node) : Prop :=
  NoDup (nid <$> descendants document).


Module SalTalk.

Definition item_selector : selector := SelType "app-product-item".
Definition price_selector : selector := SelClass "product-price".
Definition container_selector : selector := SelClass "product-container".

(** The body of the first [forEach] of [filterByPrice]. *)
Definition filter_item (maxPrice : jsvalue) (σ : gmap nat string) (elem : node)
  : gmap nat string :=
  match querySelector price_selector elem with
  | None => σ
  | Some priceElem =>
      let price := parseFloat (replace "$" "" (innerText priceElem)) in
      if match maxPrice with
         | Null | Undefined => true
         | Num m => num_le price m
         end
      then set_display elem "inline-block" σ
      else set_display elem "none" σ
  end.

Definition visibleProducts (σ : gmap nat string) (elem : node) : nat :=
  length (filter (fun e => display σ e ≠ "none")
                 (querySelectorAll item_selector elem)).

(** The body of the second [forEach] of [filterByPrice]. *)
Definition filter_container (σ : gmap nat string) (elem : node) : gmap nat string :=
  if (visibleProducts σ elem =? 0)%nat
  then set_display elem "none" σ
  else set_display elem "block" σ.

Definition filterByPrice (maxPrice : jsvalue) (document : node)
    (σ : gmap nat string) : gmap nat string :=
  let σ1 := foldl (filter_item maxPrice) σ (querySelectorAll item_selector document) in
  foldl filter_container σ1 (querySelectorAll container_selector document).

(** What the item loop leaves in [style.display] of an item. *)
Definition item_display (maxPrice : jsvalue) (σ : gmap nat string) (elem : node)
  : string :=
  match querySelector price_selector elem with
  | None => display σ elem
  | Some priceElem =>
      if match maxPrice with
         | Null | Undefined => true
         | Num m => num_le (parseFloat (replace "$" "" (innerText priceElem))) m
         end
      then "inline-block" else "none"
  end.

(** The result of [new URL(url)], as far as [parseUrl] reads it: the
    path and the query parameters in their order. *)
Record URL := {
  pathname : string;
  searchParams : list (string * string)
}.

(** [searchParams.get(name)]: the first value under [name], or [null]. *)
Definition searchParams_get (name : string) (urlObj : URL) : option string :=
  snd <$> List.find (fun kv => String.eqb (fst kv) name) (searchParams urlObj).

(** A property of [params]: a number or a string. *)
Inductive param :=
| PNumber (n : number)
| PString (s : string).

(** [a[i]] handed to [parseInt]: a missing piece is [undefined], which
    [parseInt] reads as the string "undefined". *)
Definition parseInt_piece (pieces : list string) (i : nat) : number :=
  parseInt (default "undefined" (pieces !! i)).

(** [parseUrl], from the URL object on: the page and [params]. *)
Definition parseUrl (urlObj : URL) : string * gmap string param :=
  let page := pathname urlObj in
  let params : gmap string param :=
    if String.eqb page "/" then
      match searchParams_get "date" urlObj,
            searchParams_get "shippingTime" urlObj with
      | Some date, Some meal =>
          if (negb (String.eqb date "") && negb (String.eqb meal ""))%bool then
            <["meal" := PString meal]>
              (<["date" := PNumber (parseInt_piece (split "-" date) 2)]>
                 (<["month" := PNumber (parseInt_piece (split "-" date) 1)]>
                    (<["year" := PNumber (parseInt_piece (split "-" date) 0)]> ∅)))
          else ∅
      | _, _ => ∅
      end
    else ∅ in
  (page, params).

Definition items_apart (document : node) : Prop :=
  Forall (fun e => ¬ (matches item_selector e ∧ matches container_selector e))
         (descendants document).

End SalTalk.

(** *** A sample page *)

Definition elem (i : nat) (name : string) (cls : list string) (text : string)
    (kids : list node) : node :=
  Node i ELEMENT_NODE name cls text kids.

Definition product (i : nat) (price : string) : node :=
  elem i "app-product-item" [] ""
    [elem (i + 1) "span" ["product-price"] price []].

Definition sample_page : node :=
  Node 0 DOCUMENT_NODE "" [] ""
    [elem 1 "div" ["product-container"] ""
       [product 10 "$12.00"; product 20 "$8.00"; product 30 "$20.00"];
     elem 2 "div" ["product-container"] "" [];
     elem 3 "div" ["product-container"] ""
       [product 40 "N/A"; elem 50 "app-product-item" [] "" []]].

(** The [style.display] of the sample page before a pass: one item was
    shown and one hidden by an earlier pass. *)
Definition sample_style : gmap nat string :=
  {[ 40%nat := "inline-block"; 50%nat := "none" ]}.

Definition ten : number := Finite (Qmake 10 1).

(** ** Utils *)

Module Utils.

(** *** [waitForElement] *)

Inductive promise :=
| Pending
| Resolved (element : node)
| Rejected (reason : string).

(** One run of the [setInterval] callback.  [elapsed] is
    [Date.now() - startTime] and [element] the result of
    [document.querySelector(selector)] at that moment; [timeout] is
    [None] when the argument is [undefined].  Once the promise has
    settled the interval is cleared and nothing runs any more. *)
Definition waitForElement_tick (timeout : option Z) (elapsed : Z)
    (element : option node) (p : promise) : promise :=
  match p with
  | Pending =>
      match element with
      | Some e => Resolved e
      | None =>
          match timeout with
          | None => Pending
          | Some t => if t <? elapsed then Rejected "Timeout" else Pending
          end
      end
  | settled => settled
  end.

Definition poll_interval : Z := 100.

(** The promise returned by [waitForElement(selector, timeout)] after
    [n] runs of the interval callback, the [k]-th of which happens
    [k * 100] time units after the call and sees the document
    [documents k]. *)
Fixpoint waitForElement (selector : selector) (timeout : option Z)
    (documents : nat -> node) (n : nat) : promise :=
  match n with
  | O => Pending
  | S k =>
      waitForElement_tick timeout (poll_interval * Z.of_nat n)
        (querySelector selector (documents n))
        (waitForElement selector timeout documents k)
  end.

Definition is_settled (p : promise) : bool :=
  match p with Pending => false | _ => true end.

(** The first run of the interval callback, among the [fuel] runs from
    the [k]-th on, after which the promise is settled. *)
Fixpoint first_settled (p : nat -> promise) (k fuel : nat) : option nat :=
  match fuel with
  | O => None
  | S fuel' => if is_settled (p k) then Some k else first_settled p (S k) fuel'
  end.

(** The elapsed time at which the promise settles, looking at the first
    [fuel] runs of the interval callback. *)
Definition settle_time (selector : selector) (timeout : option Z)
    (documents : nat -> node) (fuel : nat) : option Z :=
  (fun k => poll_interval * Z.of_nat k) <$>
    first_settled (waitForElement selector timeout documents) 1 fuel.

(** *** [urlWatcher] *)

(** What the observer callback does, in program order. *)
Inductive url_action :=
| AssignPreviousUrl (url : string)
| CallCallback (url previous : string).

Definition initial_previousUrl : string := "".

(** One mutation notification, with [href] the value of
    [window.location.href]: the new [previousUrl] and the actions
    performed. *)
Definition urlWatcher (href previousUrl : string) : string * list url_action :=
  if negb (String.eqb href previousUrl) then
    let cachedPreviousUrl := previousUrl in
    (href, [AssignPreviousUrl href; CallCallback href cachedPreviousUrl])
  else (previousUrl, []).

(** The notifications of a whole run, one [href] per notification. *)
Definition urlWatcher_run (hrefs : list string) : string * list url_action :=
  foldl (fun '(prev, acts) href =>
           let '(prev', acts') := urlWatcher href prev in (prev', acts ++ acts'))
        (initial_previousUrl, []) hrefs.

(** *** [elementWatcher] *)

Inductive event := init | added | removed | modified.

#[global] Instance event_eq_dec : EqDecision event.
Proof. solve_decision. Defined.

Definition includes (events : list event) (e : event) : bool :=
  bool_decide (e ∈ events).

Inductive mutation_type := childList | attributes | characterData.

#[global] Instance mutation_type_eq_dec : EqDecision mutation_type.
Proof. solve_decision. Defined.

Record mutation := {
  type : mutation_type;
  target : node;
  addedNodes : list node;
  removedNodes : list node
}.

(** The state the watcher builds up: the calls of [callback] made so
    far, oldest first, and the node of every per-node observer created
    by [addModifiedObserver]. *)
Record watcher := {
  calls : list (node * event);
  observers : list node
}.

Definition callback (n : node) (e : event) (w : watcher) : watcher :=
  {| calls := calls w ++ [(n, e)]; observers := observers w |}.

Definition addModifiedObserver (elem : node) (w : watcher) : watcher :=
  {| calls := calls w; observers := observers w ++ [elem] |}.

(** The nodes returned by the successive [walker.nextNode()] of a
    [SHOW_ELEMENT] walker rooted at [root]: the walker starts on the
    root, so the first [nextNode()] already moves below it. *)
Definition treeWalker (root : node) : list node :=
  filter (fun n => is_element n) (descendants root).

(** Set-up: the nodes already in [document.body]. *)
Definition elementWatcher (selector : selector) (events : list event)
    (body : node) : watcher :=
  foldl (fun w node =>
           let w := if includes events init then callback node init w else w in
           if includes events modified then addModifiedObserver node w else w)
        {| calls := []; observers := [] |}
        (querySelectorAll selector body).

(** The [while (walker.nextNode())] loop for one added node. *)
Definition walk_added (selector : selector) (events : list event)
    (w : watcher) (node : node) : watcher :=
  foldl (fun w currentNode =>
           if matches selector currentNode then
             let w := if includes events added then callback node added w else w in
             if includes events modified then addModifiedObserver node w else w
           else w)
        w (treeWalker node).

(** The callback of the observer for additions, on one batch. *)
Definition added_observer (selector : selector) (events : list event)
    (mutations : list mutation) (w : watcher) : watcher :=
  foldl (fun w mutation => foldl (walk_added selector events) w (addedNodes mutation))
        w (filter (fun m => type m = childList) mutations).

(** A per-node observer on [elem] is registered with [subtree: true]:
    it reports the changes of [elem] and of its descendants. *)
Definition observes (elem target : node) : bool :=
  bool_decide (nid target = nid elem)
  || bool_decide (nid target ∈ map nid (descendants elem)).

(** A change of [target] is delivered to every per-node observer that
    observes it; each runs [callback(elem, "modified")]. *)
Definition modified_observers (target : node) (w : watcher) : watcher :=
  foldl (fun w elem => if observes elem target then callback elem modified w else w)
        w (observers w).



(** *** [debounceLeading] *)

Section Debounce.
Context {A S : Type}.

(** The closure variable [timer] is [None] when undefined and [Some r]
    while a timeout is pending that fires in [r] time units.  [S] is the
    state [func] acts on. *)
Definition debounceLeading (func : A -> S -> S) (timeout : Z) (args : A)
    (st : option Z * S) : option Z * S :=
  let '(timer, s) := st in
  let s := match timer with None => func args s | Some _ => s end in
  (Some timeout, s).
End Debounce.

(** [dt] time units pass: a pending timeout that is due runs and
    resets [timer]. *)
Definition elapse (dt : Z) (timer : option Z) : option Z :=
  match timer with
  | Some r => if r <=? dt then None else Some (r - dt)
  | None => None
  end.

(** *** [debounce] *)

Section DebounceTrailing.
Context {A S : Type}.

(** The closure variable [timeout] is [None] when no timeout is pending
    and [Some (r, args)] while the [later] of the call made with [args]
    is due in [r] time units.  A call cancels the pending timeout and
    schedules its own; [func] is not run by the call. *)
Definition debounce (func : A -> S -> S) (wait : Z) (args : A)
    (st : option (Z * A) * S) : option (Z * A) * S :=
  let '(_, s) := st in (Some (wait, args), s).

(** [dt] time units pass: a pending [later] that is due runs [func] with
    the arguments of its call and clears [timeout]. *)
Definition debounce_elapse (func : A -> S -> S) (dt : Z)
    (st : option (Z * A) * S) : option (Z * A) * S :=
  match st with
  | (Some (r, args), s) =>
      if r <=? dt then (None, func args s) else (Some (r - dt, args), s)
  | (None, s) => (None, s)
  end.
End DebounceTrailing.

End Utils.

(** ** FilterByBudgetComponent *)

Module FilterByBudgetComponent.

Record CheckBoxComponent := {
  parent : node;
  isChecked : bool;
  labelText : string
}.

(** The fields of the component, the [timer] of each of its two
    [debounceLeading] wrappers, and the arguments of the calls of
    [SalTalk.filterByPrice] made so far, oldest first. *)
Record state := {
  enabled : bool;
  ui : option CheckBoxComponent;
  budget : jsvalue;
  productsTimer : option Z;
  cartTimer : option Z;
  filterCalls : list jsvalue
}.

Definition constructor (defaultState : bool) : state :=
  {| enabled := defaultState; ui := None; budget := Null;
     productsTimer := None; cartTimer := None; filterCalls := [] |}.

Section Component.
(** [Utils.formatCurrencyValue], the currency formatter of the platform. *)
Variable formatCurrencyValue : number -> string.

(** [budget != null] is false for [null] and for [undefined]. *)
Definition component_labelText (st : state) : string :=
  "Filter by budget" +:+
  match budget st with
  | Num b => " (" +:+ formatCurrencyValue b +:+ " available)"
  | Null | Undefined => ""
  end.

Definition setLabel (text : string) (c : CheckBoxComponent) : CheckBoxComponent :=
  {| parent := parent c; isChecked := isChecked c; labelText := text |}.

(** [#applyFilter].  [remainingBudget] is the value of
    [cartData[id]?.remainingBudget] for the cart and URL of the moment:
    [None] when it is [undefined]. *)
Definition applyFilter (remainingBudget : option number) (st : state) : state :=
  let b :=
    if enabled st
    then match remainingBudget with Some r => Num r | None => Undefined end
    else Null in
  let st1 :=
    {| enabled := enabled st; ui := ui st; budget := b;
       productsTimer := productsTimer st; cartTimer := cartTimer st;
       filterCalls := filterCalls st |} in
  {| enabled := enabled st1;
     ui := setLabel (component_labelText st1) <$> ui st1;
     budget := budget st1;
     productsTimer := productsTimer st1; cartTimer := cartTimer st1;
     filterCalls := filterCalls st1 ++ [budget st1] |}.

(** The callback given to [Utils.urlWatcher]: [(_url) => this.#applyFilter]
    evaluates to the method and does not call it. *)
Definition url_callback (url previous : string) (st : state) : state := st.

(** The callback of the watcher on [.menu-user-preferences-tags]: the
    old check box is removed and a new one is rendered in [elem]. *)
Definition menu_callback (elem : node) (st : state) : state :=
  {| enabled := enabled st;
     ui := Some {| parent := elem; isChecked := enabled st;
                   labelText := component_labelText st |};
     budget := budget st;
     productsTimer := productsTimer st; cartTimer := cartTimer st;
     filterCalls := filterCalls st |}.

(** The [changedCallback] of the check box, after [#checkboxChanged] has
    stored the new value in the check box. *)
Definition checkbox_changed (checked : bool) (remainingBudget : option number)
    (st : state) : state :=
  applyFilter remainingBudget
    {| enabled := checked;
       ui := (fun c => {| parent := parent c; isChecked := checked;
                          labelText := labelText c |}) <$> ui st;
       budget := budget st;
       productsTimer := productsTimer st; cartTimer := cartTimer st;
       filterCalls := filterCalls st |}.

Definition set_productsTimer (t : option Z) (st : state) : state :=
  {| enabled := enabled st; ui := ui st; budget := budget st;
     productsTimer := t; cartTimer := cartTimer st;
     filterCalls := filterCalls st |}.

Definition set_cartTimer (t : option Z) (st : state) : state :=
  {| enabled := enabled st; ui := ui st; budget := budget st;
     productsTimer := productsTimer st; cartTimer := t;
     filterCalls := filterCalls st |}.

(** The callback of the watcher on the product list:
    [Utils.debounceLeading((_elem, _modification) => this.#applyFilter)],
    whose wrapped function again only evaluates to the method. *)
Definition products_callback (elem : node) (ev : Utils.event) (st : state) : state :=
  let '(t, st') :=
    Utils.debounceLeading (fun _ s => s) 500 (elem, ev) (productsTimer st, st) in
  set_productsTimer t st'.

(** The callback of the watcher on the cart, whose wrapped function
    calls [this.#applyFilter()]. *)
Definition cart_callback (remainingBudget : option number) (elem : node)
    (ev : Utils.event) (st : state) : state :=
  let '(t, st') :=
    Utils.debounceLeading (fun _ s => applyFilter remainingBudget s) 500
      (elem, ev) (cartTimer st, st) in
  set_cartTimer t st'.

(** What can happen to the component. *)
Inductive input :=
| UrlChanged (url previous : string)
| MenuChanged (elem : node)
| ProductsChanged (elem : node) (ev : Utils.event)
| CartChanged (elem : node) (ev : Utils.event)
| CheckboxChanged (checked : bool)
| Elapsed (dt : Z).

Definition step (remainingBudget : option number) (st : state) (i : input) : state :=
  match i with
  | UrlChanged url previous => url_callback url previous st
  | MenuChanged elem => menu_callback elem st
  | ProductsChanged elem ev => products_callback elem ev st
  | CartChanged elem ev => cart_callback remainingBudget elem ev st
  | CheckboxChanged checked => checkbox_changed checked remainingBudget st
  | Elapsed dt =>
      set_cartTimer (Utils.elapse dt (cartTimer st))
        (set_productsTimer (Utils.elapse dt (productsTimer st)) st)
  end.

End Component.

End FilterByBudgetComponent.

(** ** CheckBoxComponent, on the page *)

Module CheckBox.

(** The part of the page the component acts on: the child nodes of each
    node, first child first, by node identity; the [checked] attribute
    and the label text of each rendered check box; and the identity the
    next created element gets. *)
Record page := {
  kids : gmap nat (list nat);
  attrs : gmap nat (bool * string);
  fresh : nat
}.

Record component := {
  parent : nat;
  isChecked : bool;
  labelText : string;
  rendered : option nat
}.

Definition children (pg : page) (p : nat) : list nat :=
  default [] (kids pg !! p).

(** [#render]: a new [div] holding the check box and the label. *)
Definition render (c : component) (pg : page) : nat * page :=
  (fresh pg,
   {| kids := kids pg;
      attrs := <[fresh pg := (isChecked c, labelText c)]> (attrs pg);
      fresh := S (fresh pg) |}).

(** [p.prepend(n)]. *)
Definition prepend (p n : nat) (pg : page) : page :=
  {| kids := <[p := n :: children pg p]> (kids pg);
     attrs := attrs pg; fresh := fresh pg |}.

(** [old.replaceWith(n)]: [n] takes the place of [old] under the parent
    of [old]; nothing happens when [old] has no parent. *)
Definition replaceWith (old n : nat) (pg : page) : page :=
  {| kids := fmap (M := list)
               (fun i => if decide (i = old) then n else i) <$> kids pg;
     attrs := attrs pg; fresh := fresh pg |}.

(** [old.remove()]. *)
Definition remove_node (old : nat) (pg : page) : page :=
  {| kids := filter (fun i => i ≠ old) <$> kids pg;
     attrs := attrs pg; fresh := fresh pg |}.

(** [#display]. *)
Definition display (s : component * page) : component * page :=
  let '(c, pg) := s in
  let '(n, pg1) := render c pg in
  let pg2 :=
    match rendered c with
    | Some old => replaceWith old n pg1
    | None => prepend (parent c) n pg1
    end in
  ({| parent := parent c; isChecked := isChecked c;
      labelText := labelText c; rendered := Some n |}, pg2).

Definition constructor (parent : nat) (defaultState : bool) (labelText : string)
    (pg : page) : component * page :=
  display ({| parent := parent; isChecked := defaultState;
              labelText := labelText; rendered := None |}, pg).

Definition setLabel (labelText : string) (s : component * page)
  : component * page :=
  let '(c, pg) := s in
  display ({| parent := parent c; isChecked := isChecked c;
              labelText := labelText; rendered := rendered c |}, pg).

Definition remove (s : component * page) : component * page :=
  let '(c, pg) := s in
  (c, match rendered c with
      | Some old => remove_node old pg
      | None => pg
      end).

End CheckBox.

(** The component was rendered and is on the page under no node: every
    node has the children it had in [before]. *)
Definition detached (before : CheckBox.page) (s : CheckBox.component * CheckBox.page)
  : Prop :=
  (∀ q, CheckBox.children s.2 q = CheckBox.children before q)
  ∧ ∃ n, CheckBox.rendered s.1 = Some n
         ∧ (CheckBox.fresh before <= n < CheckBox.fresh s.2)%nat.

(** Every node of the page was created before the next fresh identity. *)
Definition page_ok (pg : CheckBox.page) : Prop :=
  ∀ p i, i ∈ CheckBox.children pg p → (i < CheckBox.fresh pg)%nat.

(** The component shows as one [div], first under its parent, in front
    of the children [before] had; every other node has the children it
    had in [before]; and the [div] carries the state of the component. *)
Definition mounted (before : CheckBox.page) (s : CheckBox.component * CheckBox.page)
  : Prop :=
  ∃ n, CheckBox.rendered s.1 = Some n
       ∧ (CheckBox.fresh before <= n < CheckBox.fresh s.2)%nat
       ∧ CheckBox.children s.2 (CheckBox.parent s.1)
         = n :: CheckBox.children before (CheckBox.parent s.1)
       ∧ (∀ q, q ≠ CheckBox.parent s.1 →
               CheckBox.children s.2 q = CheckBox.children before q)
       ∧ CheckBox.attrs s.2 !! n
         = Some (CheckBox.isChecked s.1, CheckBox.labelText s.1).

(** ** Derived notions *)

(** The callback of the URL watcher is among the actions. *)
Definition callback_called (acts : list Utils.url_action) : Prop :=
  ∃ url previous, Utils.CallCallback url previous ∈ acts.

(** A burst: each call comes with the time elapsed since the one before.
    The state is the list of the arguments [func] was run with. *)
Definition burst {A} (c : Z) (calls : list (Z * A)) : option Z * list A :=
  foldl (fun st '(dt, args) =>
           Utils.debounceLeading (fun a log => log ++ [a]) c args
             (Utils.elapse dt st.1, st.2))
        (None, []) calls.

(** The budget [#applyFilter] computes: the looked-up remaining budget
    when the filter is enabled, [null] otherwise. *)
Definition recomputed_budget (enabled : bool) (remainingBudget : option number)
  : jsvalue :=
  if enabled
  then match remainingBudget with Some r => Num r | None => Undefined end
  else Null.

(** The elements strictly below [root] that match the selector. *)
Definition matching_below (selector : selector) (root : node) : nat :=
  length (filter (fun n => matches selector n) (Utils.treeWalker root)).



Fixpoint contains (c : ascii) (s : string) : bool :=
  match s with
  | EmptyString => false
  | String a r => Ascii.eqb a c || contains c r
  end.

(** The pairs of arguments the callback of the URL watcher was called
    with, in order. *)
Definition url_callbacks (acts : list Utils.url_action) : list (string * string) :=
  omap (fun a => match a with
                 | Utils.CallCallback url previous => Some (url, previous)
                 | Utils.AssignPreviousUrl _ => None
                 end) acts.

(** Each call reports a change away from the URL of the call before. *)
Fixpoint url_chain (previous : string) (cbs : list (string * string)) : Prop :=
  match cbs with
  | [] => True
  | (url, p) :: rest => p = previous ∧ url ≠ previous ∧ url_chain url rest
  end.

(** A run of calls of a trailing debounce, each with the time elapsed
    since the one before. *)
Definition trailing_burst {A S} (func : A -> S -> S) (wait : Z)
    (calls : list (Z * A)) (st : option (Z * A) * S) : option (Z * A) * S :=
  foldl (fun st '(dt, args) =>
           Utils.debounce func wait args (Utils.debounce_elapse func dt st))
        st calls.

(** What reaches an element watcher after set-up: a batch of mutation
    records for the observer of additions, or a change of [target] for
    the per-node observers. *)
Inductive notification :=
| Batch (mutations : list Utils.mutation)
| Change (target : node).

Definition notify (selector : selector) (events : list Utils.event)
    (w : Utils.watcher) (n : notification) : Utils.watcher :=
  match n with
  | Batch mutations => Utils.added_observer selector events mutations w
  | Change target => Utils.modified_observers target w
  end.

(** What a run of a watcher keeps true: only requested kinds are
    reported, and per-node observers exist only when "modified" is
    requested. *)
Definition watcher_ok (events : list Utils.event) (w : Utils.watcher) : Prop :=
  (∀ n e, (n, e) ∈ Utils.calls w → e ∈ events)
  ∧ (Utils.modified ∉ events → Utils.observers w = []).

(** The nodes inserted by the [childList] records of a batch, in order. *)
Definition inserted_nodes (mutations : list Utils.mutation) : list node :=
  mutations ≫= (fun m =>
    if decide (Utils.type m = Utils.childList) then Utils.addedNodes m else []).

(** A run of the component: each input comes with the remaining budget
    the cart shows for the current URL at that moment. *)
Definition component_run (formatCurrencyValue : number -> string)
    (defaultState : bool)
    (inputs : list (option number * FilterByBudgetComponent.input))
  : FilterByBudgetComponent.state :=
  foldl (fun st '(remainingBudget, i) =>
           FilterByBudgetComponent.step formatCurrencyValue remainingBudget st i)
        (FilterByBudgetComponent.constructor defaultState) inputs.

(** What every state of the component satisfies: with the filter off
    the budget is [null], and the rendered check box shows the state. *)
Definition component_ok (formatCurrencyValue : number -> string)
    (st : FilterByBudgetComponent.state) : Prop :=
  (FilterByBudgetComponent.enabled st = false →
   FilterByBudgetComponent.budget st = Null)
  ∧ (∀ c, FilterByBudgetComponent.ui st = Some c →
          FilterByBudgetComponent.isChecked c = FilterByBudgetComponent.enabled st
          ∧ FilterByBudgetComponent.labelText c
            = FilterByBudgetComponent.component_labelText formatCurrencyValue st).

(** The inputs whose callback calls [#applyFilter]. *)
Definition triggers_filter (i : FilterByBudgetComponent.input) : bool :=
  match i with
  | FilterByBudgetComponent.CartChanged _ _
  | FilterByBudgetComponent.CheckboxChanged _ => true
  | _ => false
  end.

(** ** Sample inputs *)

(** A page that never changes, and a selector nothing matches on it. *)
Definition still_page (k : nat) : node := sample_page.

Definition absent_selector : selector := SelClass "cart-items-box".

(** An inserted subtree whose root matches [.row] and has no child, and
    one whose root has two matching children. *)
Definition row_selector : selector := SelClass "row".

Definition lone_row : node := elem 100 "div" ["row"] "" [].

Definition two_rows : node :=
  elem 200 "section" [] ""
    [elem 201 "div" ["row"] "" []; elem 202 "div" ["row"] "" []].

Definition inserted (nodes : list node) : Utils.mutation :=
  {| Utils.type := Utils.childList; Utils.target := sample_page;
     Utils.addedNodes := nodes; Utils.removedNodes := [] |}.

Definition empty_body : node := elem 0 "body" [] "" [].

Definition menu_bar : node := elem 300 "div" ["menu-user-preferences-tags"] "" [].

(** A menu node, 1, with two children, 2 and 3. *)
Definition sample_dom : CheckBox.page :=
  {| CheckBox.kids := {[ 1%nat := [2%nat; 3%nat] ]};
     CheckBox.attrs := ∅;
     CheckBox.fresh := 10 |}.

(** A formatter for the sample runs. *)
Definition sample_format (n : number) : string := "$15.50".

(** * Properties *)

(** ** The tree *)

Lemma descendants_unfold i t name cls text kids :
  descendants (Node i t name cls text kids)
  = flat_map (fun k => k :: descendants k) kids.
Proof. reflexivity. Qed.

Lemma elem_of_flat_map {A B} (f : A -> list B) (l : list A) (y : B) :
  y ∈ flat_map f l ↔ ∃ x, x ∈ l ∧ y ∈ f x.
Proof.
  rewrite list_elem_of_In, in_flat_map.
  split; intros (x & Hx & Hy); exists x; rewrite ?list_elem_of_In in *; auto.
Qed.

Lemma elem_of_descendants e n :
  e ∈ descendants n ↔ ∃ k, k ∈ childNodes n ∧ (e = k ∨ e ∈ descendants k).
Proof.
  destruct n as [i t name cls text kids]; rewrite descendants_unfold; simpl.
  rewrite elem_of_flat_map. by setoid_rewrite elem_of_cons.
Qed.

(** A descendant of a descendant is a descendant. *)
Lemma descendants_trans n : ∀ c e,
  c ∈ descendants n → e ∈ descendants c → e ∈ descendants n.
Proof.
  induction n as [i t name cls text kids IH] using node_tree_ind; intros c e Hc He.
  apply elem_of_descendants in Hc as (k & Hk & Hc); simpl in Hk.
  apply elem_of_descendants; exists k; split; [done|]; right.
  destruct Hc as [->|Hc]; [done|].
  rewrite Forall_forall in IH. eapply IH; eauto.
Qed.

Lemma querySelectorAll_descendant sel n e :
  e ∈ querySelectorAll sel n ↔ matches sel e ∧ e ∈ descendants n.
Proof. unfold querySelectorAll. by rewrite list_elem_of_filter. Qed.

Lemma NoDup_fmap_eq {A B} (f : A -> B) (l : list A) x y :
  NoDup (f <$> l) → x ∈ l → y ∈ l → f x = f y → x = y.
Proof.
  induction l as [|a l IH]; [by intros _ ?%elem_of_nil|].
  rewrite fmap_cons, NoDup_cons, !elem_of_cons.
  intros [Ha Hl] [->|Hx] [->|Hy] Hxy; auto.
  - exfalso; apply Ha; rewrite Hxy; by apply list_elem_of_fmap_2.
  - exfalso; apply Ha; rewrite <- Hxy; by apply list_elem_of_fmap_2.
Qed.

Lemma NoDup_ids_filter (P : node -> Prop) `{∀ x, Decision (P x)} l :
  NoDup (nid <$> l) → NoDup (nid <$> filter P l).
Proof.
  induction l as [|a l IH]; [done|].
  rewrite fmap_cons, NoDup_cons; intros [Ha Hl].
  rewrite filter_cons; destruct (decide (P a)); [|auto].
  rewrite fmap_cons, NoDup_cons; split; [|auto].
  intros (x & Hx & Hin%list_elem_of_filter)%list_elem_of_fmap.
  apply Ha; rewrite Hx; apply list_elem_of_fmap_2; tauto.
Qed.

(** ** Loops that write [style.display] of the node they visit *)

Section WriteLoops.
Variable body : gmap nat string -> node -> gmap nat string.
Hypothesis body_frame : ∀ σ e j, j ≠ nid e → body σ e !! j = σ !! j.

Lemma foldl_untouched l : ∀ σ j,
  j ∉ nid <$> l → foldl body σ l !! j = σ !! j.
Proof.
  induction l as [|e l IH]; intros σ j Hj; [done|]; simpl.
  rewrite fmap_cons, not_elem_of_cons in Hj; destruct Hj as [Hne Hj].
  rewrite IH by done. by apply body_frame.
Qed.

(** With distinct identities, the cell of a visited node holds what its
    own visit wrote, and that visit saw the cell as it was at the start. *)
Lemma foldl_visited l σ e :
  NoDup (nid <$> l) → e ∈ l →
  ∃ l1 l2, l = l1 ++ e :: l2
    ∧ foldl body σ l !! nid e = body (foldl body σ l1) e !! nid e
    ∧ foldl body σ l1 !! nid e = σ !! nid e.
Proof.
  intros Hnd (l1 & l2 & ->)%list_elem_of_split.
  exists l1, l2; split; [done|].
  rewrite fmap_app, fmap_cons in Hnd.
  apply NoDup_app in Hnd as (_ & Hl1 & [Hl2 _]%NoDup_cons).
  rewrite foldl_app; simpl; split.
  - by rewrite foldl_untouched.
  - rewrite foldl_untouched; [done|]. intros Hin; apply (Hl1 _ Hin); left.
Qed.
End WriteLoops.

(** ** [SalTalk.filterByPrice] *)

Section FilterByPrice.
Import SalTalk.

Lemma filter_item_frame maxPrice σ e j :
  j ≠ nid e → filter_item maxPrice σ e !! j = σ !! j.
Proof.
  intros Hj; unfold filter_item, set_display.
  destruct (querySelector _ _); [|done].
  by destruct (match maxPrice with Num m => _ | _ => _ end);
    rewrite lookup_insert_ne.
Qed.

Lemma filter_container_frame σ e j :
  j ≠ nid e → filter_container σ e !! j = σ !! j.
Proof.
  intros Hj; unfold filter_container, set_display.
  by destruct (_ =? _)%nat; rewrite lookup_insert_ne.
Qed.

Lemma display_filter_item maxPrice σ0 σ e :
  σ0 !! nid e = σ !! nid e →
  display (filter_item maxPrice σ0 e) e = item_display maxPrice σ e.
Proof.
  intros Heq; unfold display at 1, filter_item, item_display, set_display.
  destruct (querySelector _ _); [|by unfold display; rewrite Heq].
  by destruct (match maxPrice with Num m => _ | _ => _ end);
    rewrite lookup_insert_eq.
Qed.

Lemma lookup_filter_container σ0 c :
  filter_container σ0 c !! nid c
  = Some (if (visibleProducts σ0 c =? 0)%nat then "none" else "block").
Proof.
  unfold filter_container, set_display.
  by destruct (_ =? _)%nat; rewrite lookup_insert_eq.
Qed.

Lemma visibleProducts_ext σ1 σ2 c :
  (∀ e, e ∈ querySelectorAll item_selector c → σ1 !! nid e = σ2 !! nid e) →
  visibleProducts σ1 c = visibleProducts σ2 c.
Proof.
  unfold visibleProducts; intros Heq.
  induction (querySelectorAll item_selector c) as [|a l IH]; [done|].
  rewrite !filter_cons.
  assert (display σ1 a = display σ2 a) as Ha
    by (unfold display; rewrite Heq; [done|left]).
  assert (∀ e, e ∈ l → σ1 !! nid e = σ2 !! nid e) as Hl
    by (intros e He; apply Heq; by right).
  rewrite Ha; destruct (decide _); simpl; by rewrite (IH Hl).
Qed.


Variables (maxPrice : jsvalue) (document : node) (σ : gmap nat string).
Hypothesis ids : distinct_ids document.
Hypothesis apart : items_apart document.

Let σ1 : gmap nat string :=
  foldl (filter_item maxPrice) σ (querySelectorAll item_selector document).

(** The container loop never writes the cell of an item. *)
Lemma container_loop_keeps_items l e σ0 :
  l ⊆ querySelectorAll container_selector document →
  e ∈ descendants document → matches item_selector e →
  foldl filter_container σ0 l !! nid e = σ0 !! nid e.
Proof.
  intros Hl He Hitem.
  apply foldl_untouched; [apply filter_container_frame|].
  intros (c & Hid & Hc)%list_elem_of_fmap.
  apply Hl, querySelectorAll_descendant in Hc as [Hcont Hc].
  assert (e = c) as -> by (eapply NoDup_fmap_eq; [exact ids|done..]).
  unfold items_apart in apart; rewrite Forall_forall in apart.
  by apply (apart c).
Qed.

(** After the pass, every item carries the decision of the item loop. *)
Lemma filterByPrice_item elem :
  elem ∈ querySelectorAll item_selector document →
  display (filterByPrice maxPrice document σ) elem = item_display maxPrice σ elem.
Proof.
  intros Helem. pose proof Helem as [Hitem Hdesc]%querySelectorAll_descendant.
  unfold filterByPrice, display at 1.
  rewrite container_loop_keeps_items by done.
  destruct (foldl_visited (filter_item maxPrice) (filter_item_frame maxPrice)
              (querySelectorAll item_selector document) σ elem)
    as (l1 & l2 & _ & -> & Hstart); [|done|].
  - by apply NoDup_ids_filter.
  - by apply display_filter_item.
Qed.

(** After the pass, a container is shown exactly when it has a visible
    item below it. *)
Lemma filterByPrice_container c :
  c ∈ querySelectorAll container_selector document →
  display (filterByPrice maxPrice document σ) c
  = if (visibleProducts (filterByPrice maxPrice document σ) c =? 0)%nat
    then "none" else "block".
Proof.
  intros Hc. pose proof Hc as [Hcont Hdesc]%querySelectorAll_descendant.
  unfold filterByPrice; fold σ1.
  destruct (foldl_visited filter_container filter_container_frame
              (querySelectorAll container_selector document) σ1 c)
    as (l1 & l2 & Hsplit & Hc' & _); [by apply NoDup_ids_filter|done|].
  unfold display at 1; rewrite Hc'.
  assert (visibleProducts (foldl filter_container σ1 l1) c
          = visibleProducts
              (foldl filter_container σ1
                 (querySelectorAll container_selector document)) c) as Hvis.
  { apply visibleProducts_ext; intros e [Hitem He]%querySelectorAll_descendant.
    pose proof (descendants_trans _ _ _ Hdesc He) as Hed.
    rewrite !container_loop_keeps_items; try done.
    rewrite Hsplit; intros x Hx; apply elem_of_app; by left. }
  by rewrite lookup_filter_container, Hvis.
Qed.

End FilterByPrice.

Ltac by_computation := apply (bool_decide_unpack _); vm_compute; exact I.





(** The scenario of three items priced 12, 8 and 20 under a budget of
    10: hidden, shown, hidden, and their container shown. *)
Example filterByPrice_scenario :
  let σ' := SalTalk.filterByPrice (Num ten) sample_page ∅ in
  display σ' <$> [product 10 "$12.00"; product 20 "$8.00"; product 30 "$20.00"]
  = ["none"; "inline-block"; "none"]
  ∧ display σ' (elem 1 "div" ["product-container"] ""
       [product 10 "$12.00"; product 20 "$8.00"; product 30 "$20.00"]) = "block".
Proof. vm_compute. done. Qed.




(** ** [Utils.waitForElement] *)

Section WaitForElement.
Import Utils.
Variables (selector : selector) (documents : nat -> node).

(** The predicate never matches. *)
Hypothesis never : ∀ k, querySelector selector (documents k) = None.

Lemma waitForElement_no_timeout n :
  waitForElement selector None documents n = Pending.
Proof.
  induction n as [|n IH]; [done|].
  cbn [waitForElement]. by rewrite IH, never.
Qed.

(** With a timeout [t], the promise is rejected from the first run of
    the interval callback on whose elapsed time exceeds [t]. *)
Lemma waitForElement_timeout t n :
  (1 <= n)%nat →
  waitForElement selector (Some t) documents n
  = if t <? poll_interval * Z.of_nat n then Rejected "Timeout" else Pending.
Proof.
  unfold poll_interval.
  induction n as [|n IH]; [lia|]; intros _.
  cbn [waitForElement]; rewrite never.
  destruct n as [|n]; [done|].
  rewrite IH by lia. unfold poll_interval.
  destruct (Z.ltb_spec t (100 * Z.of_nat (S n))); cbn [waitForElement_tick].
  - destruct (Z.ltb_spec t (100 * Z.of_nat (S (S n)))); [done|lia].
  - done.
Qed.

Lemma first_settled_pending p fuel : ∀ k,
  (∀ n, p n = Pending) → first_settled p k fuel = None.
Proof.
  induction fuel as [|fuel IH]; intros k Hp; [done|].
  cbn [first_settled]. rewrite Hp; cbn. by apply IH.
Qed.

End WaitForElement.

Lemma first_settled_ge p fuel : ∀ k n,
  Utils.first_settled p k fuel = Some n → (k <= n)%nat.
Proof.
  induction fuel as [|fuel IH]; intros k n; [done|].
  cbn [Utils.first_settled]. destruct (Utils.is_settled (p k)).
  - intros [= ->]; lia.
  - intros Hn%IH; lia.
Qed.

(** C6, as stated, fails: on a page where nothing matches, with a
    timeout of 500 and runs of the interval callback every 100 units, the
    promise is still pending after the run at 500 and is rejected by the
    run at 600, so it does not fail before 600. *)
Lemma waitForElement_500_fails_at_600 :
  (∀ k, querySelector absent_selector (still_page k) = None)
  ∧ Utils.waitForElement absent_selector (Some 500) still_page 5 = Utils.Pending
  ∧ Utils.waitForElement absent_selector (Some 500) still_page 6
    = Utils.Rejected "Timeout"
  ∧ Utils.settle_time absent_selector (Some 500) still_page 10 = Some 600
  ∧ ¬ (∃ t, Utils.settle_time absent_selector (Some 500) still_page 10 = Some t
            ∧ 500 <= t < 600).
Proof.
  repeat split; try by vm_compute.
  intros (t & Ht & Hlt). vm_compute in Ht. injection Ht as <-. lia.
Qed.

(** C6, amended. While the predicate never matches, [waitForElement]
    with a timeout of 500 is pending after each of the first five runs of
    the interval callback (elapsed 100 to 500) and rejected with
    "Timeout" from the sixth on, so it fails at 600 elapsed units; with
    no timeout it is pending after any number of runs. *)
Theorem waitForElement_timeout_500 selector documents :
  (∀ k, querySelector selector (documents k) = None) →
  (∀ n, (n <= 5)%nat →
        Utils.waitForElement selector (Some 500) documents n = Utils.Pending)
  ∧ (∀ n, (6 <= n)%nat →
          Utils.waitForElement selector (Some 500) documents n
          = Utils.Rejected "Timeout")
  ∧ (∀ fuel, (6 <= fuel)%nat →
             Utils.settle_time selector (Some 500) documents fuel = Some 600)
  ∧ (∀ n, Utils.waitForElement selector None documents n = Utils.Pending)
  ∧ (∀ fuel, Utils.settle_time selector None documents fuel = None).
Proof.
  intros never.
  assert (∀ n, (n <= 5)%nat →
    Utils.waitForElement selector (Some 500) documents n = Utils.Pending) as Hfirst.
  { intros [|n] Hn; [done|].
    rewrite waitForElement_timeout by (done || lia). unfold Utils.poll_interval.
    destruct (Z.ltb_spec 500 (100 * Z.of_nat (S n))); [lia|done]. }
  assert (∀ n, (6 <= n)%nat →
    Utils.waitForElement selector (Some 500) documents n
    = Utils.Rejected "Timeout") as Hlater.
  { intros n Hn.
    rewrite waitForElement_timeout by (done || lia). unfold Utils.poll_interval.
    destruct (Z.ltb_spec 500 (100 * Z.of_nat n)); [done|lia]. }
  repeat split; try done.
  - intros fuel Hfuel. unfold Utils.settle_time.
    do 6 (destruct fuel as [|fuel]; [lia|]).
    cbn [Utils.first_settled].
    rewrite !Hfirst by lia. cbn [Utils.is_settled].
    by rewrite Hlater by lia.
  - intros n. by apply waitForElement_no_timeout.
  - intros fuel. unfold Utils.settle_time.
    rewrite first_settled_pending; [done|].
    intros n. by apply waitForElement_no_timeout.
Qed.

Lemma waitForElement_timeout_500_witness :
  (∀ n, (n <= 5)%nat →
        Utils.waitForElement absent_selector (Some 500) still_page n
        = Utils.Pending)
  ∧ (∀ n, (6 <= n)%nat →
          Utils.waitForElement absent_selector (Some 500) still_page n
          = Utils.Rejected "Timeout")
  ∧ (∀ fuel, (6 <= fuel)%nat →
             Utils.settle_time absent_selector (Some 500) still_page fuel
             = Some 600)
  ∧ (∀ n, Utils.waitForElement absent_selector None still_page n = Utils.Pending)
  ∧ (∀ fuel, Utils.settle_time absent_selector None still_page fuel = None).
Proof.
  apply (waitForElement_timeout_500 absent_selector still_page).
  intros k. vm_compute. reflexivity.
Defined.

(** C10. The promise of [waitForElement] is pending when the call
    returns, whatever the document holds; it settles no earlier than 100
    time units later; and when the element is there from the start it is
    resolved by the first run of the interval callback, at 100. *)
Theorem waitForElement_never_synchronous selector timeout documents :
  Utils.waitForElement selector timeout documents 0 = Utils.Pending
  ∧ (∀ fuel t,
       Utils.settle_time selector timeout documents fuel = Some t → 100 <= t)
  ∧ (∀ e fuel,
       querySelector selector (documents 1%nat) = Some e →
       Utils.waitForElement selector timeout documents 1 = Utils.Resolved e
       ∧ Utils.settle_time selector timeout documents (S fuel) = Some 100).
Proof.
  split; [done|split].
  - intros fuel t. unfold Utils.settle_time, Utils.poll_interval.
    destruct (Utils.first_settled _ _ _) as [n|] eqn:Hn; [|done].
    apply first_settled_ge in Hn. intros [= <-]. lia.
  - intros e fuel He. unfold Utils.settle_time.
    cbn [Utils.first_settled Utils.waitForElement].
    rewrite He. by cbn.
Qed.

(** ** [Utils.urlWatcher] *)

Lemma urlWatcher_changed href previousUrl :
  href ≠ previousUrl →
  Utils.urlWatcher href previousUrl
  = (href, [Utils.AssignPreviousUrl href; Utils.CallCallback href previousUrl]).
Proof.
  intros Hne. unfold Utils.urlWatcher.
  by destruct (String.eqb_spec href previousUrl).
Qed.

Lemma urlWatcher_unchanged href :
  Utils.urlWatcher href href = (href, []).
Proof. unfold Utils.urlWatcher. by rewrite String.eqb_refl. Qed.

(** C9. On a mutation notification the callback of the URL watcher is
    called exactly when [window.location.href] differs from
    [previousUrl]; then [previousUrl] is first assigned the new location
    and the callback is called next, with the new location and the old
    one; otherwise nothing is done and [previousUrl] stays. *)
Theorem urlWatcher_fires_iff_changed href previousUrl :
  (callback_called (Utils.urlWatcher href previousUrl).2 ↔ href ≠ previousUrl)
  ∧ (href ≠ previousUrl →
     Utils.urlWatcher href previousUrl
     = (href, [Utils.AssignPreviousUrl href;
               Utils.CallCallback href previousUrl]))
  ∧ (href = previousUrl →
     Utils.urlWatcher href previousUrl = (previousUrl, [])).
Proof.
  split; [|split].
  - destruct (decide (href = previousUrl)) as [->|Hne].
    + rewrite urlWatcher_unchanged; cbn. split; [|done].
      by intros (u & v & ?%elem_of_nil).
    + rewrite urlWatcher_changed by done; cbn. split; [done|].
      intros _. exists href, previousUrl. rewrite !elem_of_cons; auto.
  - apply urlWatcher_changed.
  - intros ->. apply urlWatcher_unchanged.
Qed.

(** The stored location starts empty, so the first notification on a
    page reports its URL with an empty previous one, and a second
    notification on the same page reports nothing. *)
Example urlWatcher_first_notifications :
  Utils.urlWatcher_run ["https://www.saltalk.com/"; "https://www.saltalk.com/"]
  = ("https://www.saltalk.com/",
     [Utils.AssignPreviousUrl "https://www.saltalk.com/";
      Utils.CallCallback "https://www.saltalk.com/" ""]).
Proof. reflexivity. Qed.

(** ** [Utils.debounceLeading] *)

Lemma elapse_pending (c dt : Z) :
  dt < c → Utils.elapse dt (Some c) = Some (c - dt).
Proof. intros Hlt; unfold Utils.elapse. destruct (Z.leb_spec c dt); [lia|done]. Qed.




(** Calls that each come less than [c] after the one before, made while
    a timeout is pending, never run the function. *)
Lemma burst_suppressed {A} (c : Z) (calls : list (Z * A)) : ∀ log,
  Forall (fun call => call.1 < c) calls →
  foldl (fun st '(dt, args) =>
           Utils.debounceLeading (fun a log => log ++ [a]) c args
             (Utils.elapse dt st.1, st.2))
        (Some c, log) calls
  = (Some c, log).
Proof.
  induction calls as [|[dt args] calls IH]; intros log Hall; [done|].
  apply Forall_cons in Hall as [Hdt Hall]. cbn [foldl fst snd] in *.
  rewrite elapse_pending by done. cbn. by apply IH.
Qed.

(** Three calls 100 apart under a cooldown of 500 run the function once,
    with the arguments of the first; a fourth call 500 later runs it
    again. *)
Example burst_of_four :
  burst 500 [(0, "a"); (100, "b"); (100, "c"); (500, "d")]
  = (Some 500, ["a"; "d"]).
Proof. reflexivity. Qed.

(** ** [Utils.elementWatcher] *)

Section ElementWatcher.
Import Utils.
Variables (selector : selector) (events : list event).

(** The loop over the walker, for any list of visited nodes. *)
Lemma walk_loop node l : ∀ w,
  let k := length (filter (fun n => matches selector n) l) in
  let w' :=
    foldl (fun w currentNode =>
             if matches selector currentNode then
               let w := if includes events added then callback node added w else w in
               if includes events modified then addModifiedObserver node w else w
             else w) w l in
  calls w' = calls w ++ (if includes events added
                         then replicate k (node, added) else [])
  ∧ observers w' = observers w ++ (if includes events modified
                                   then replicate k node else []).
Proof.
  induction l as [|x l IH]; intros w; cbn zeta.
  - cbn. by destruct (includes events added), (includes events modified);
      rewrite !app_nil_r.
  - cbn [foldl]. rewrite filter_cons.
    destruct (matches selector x) eqn:Hx; cbn zeta in IH |- *.
    + destruct (decide (Is_true true)) as [_|[]]; [|done].
      destruct (IH (if includes events modified
                    then addModifiedObserver node
                           (if includes events added
                            then callback node added w else w)
                    else if includes events added
                         then callback node added w else w)) as [-> ->].
      destruct (includes events added), (includes events modified); cbn;
        by rewrite <- ?app_assoc.
    + destruct (decide (Is_true false)) as [[]|_]. apply IH.
Qed.

Lemma walk_added_spec w node :
  calls (walk_added selector events w node)
  = calls w ++ (if includes events added
                then replicate (matching_below selector node) (node, added)
                else [])
  ∧ observers (walk_added selector events w node)
    = observers w ++ (if includes events modified
                      then replicate (matching_below selector node) node
                      else []).
Proof. apply walk_loop. Qed.

(** The walker never returns its root: a node without children is walked
    without any call. *)
Lemma walk_added_childless w node :
  childNodes node = [] → walk_added selector events w node = w.
Proof.
  destruct node as [i t name cls text kids]; cbn; intros ->.
  reflexivity.
Qed.


Lemma modified_loop target l : ∀ w,
  let w' :=
    foldl (fun w elem =>
             if observes elem target then callback elem modified w else w) w l in
  observers w' = observers w
  ∧ calls w' = calls w
      ++ ((fun e => (e, modified)) <$> filter (fun e => observes e target) l).
Proof.
  induction l as [|x l IH]; intros w; cbn zeta.
  - cbn. by rewrite app_nil_r.
  - cbn [foldl]. rewrite filter_cons. cbn zeta in IH.
    destruct (observes x target) eqn:Hx.
    + destruct (decide (Is_true true)) as [_|[]]; [|done].
      destruct (IH (callback x modified w)) as [-> ->]. cbn.
      by rewrite <- app_assoc.
    + destruct (decide (Is_true false)) as [[]|_]. apply IH.
Qed.



End ElementWatcher.

(** C3, on the code. An inserted node that matches the selector and has
    no child is walked without any call of the callback: the walker
    starts on the root and [nextNode()] moves below it.  The same
    selector below an inserted root is reported, with the root. *)
Theorem added_root_is_not_reported :
  let w0 := Utils.elementWatcher row_selector [Utils.added] empty_body in
  matches row_selector lone_row = true
  ∧ Utils.calls
      (Utils.added_observer row_selector [Utils.added] [inserted [lone_row]] w0)
    = []
  ∧ Utils.calls
      (Utils.added_observer row_selector [Utils.added] [inserted [two_rows]] w0)
    = [(two_rows, Utils.added); (two_rows, Utils.added)].
Proof. vm_compute. done. Qed.




(** ** [FilterByBudgetComponent] *)

Section Controller.
Import FilterByBudgetComponent.
Variable formatCurrencyValue : number -> string.
Variable remainingBudget : option number.

Lemma applyFilter_fields st :
  let st' := applyFilter formatCurrencyValue remainingBudget st in
  enabled st' = enabled st
  ∧ budget st' = recomputed_budget (enabled st) remainingBudget
  ∧ filterCalls st'
    = filterCalls st ++ [recomputed_budget (enabled st) remainingBudget]
  ∧ productsTimer st' = productsTimer st
  ∧ cartTimer st' = cartTimer st.
Proof. done. Qed.

(** The two callbacks that only evaluate to [#applyFilter] leave the
    budget and the filter alone. *)
Lemma url_callback_idle url previous st :
  step formatCurrencyValue remainingBudget st (UrlChanged url previous) = st.
Proof. done. Qed.

Lemma products_callback_idle elem ev st :
  step formatCurrencyValue remainingBudget st (ProductsChanged elem ev)
  = set_productsTimer (Some 500) st.
Proof.
  cbn. unfold products_callback, Utils.debounceLeading.
  by destruct (productsTimer st).
Qed.

End Controller.



(** The toggle scenario: the check box is mounted while the filter is
    off, then ticked with a remaining budget the formatter prints as
    "$15.50". *)
Example toggle_label :
  let st0 := FilterByBudgetComponent.constructor false in
  let st1 :=
    FilterByBudgetComponent.step sample_format (Some (Finite (Qmake 155 10))) st0
      (FilterByBudgetComponent.MenuChanged menu_bar) in
  let st2 :=
    FilterByBudgetComponent.step sample_format (Some (Finite (Qmake 155 10))) st1
      (FilterByBudgetComponent.CheckboxChanged true) in
  FilterByBudgetComponent.labelText <$> FilterByBudgetComponent.ui st1
  = Some "Filter by budget"
  ∧ FilterByBudgetComponent.labelText <$> FilterByBudgetComponent.ui st2
    = Some "Filter by budget ($15.50 available)".
Proof. vm_compute. done. Qed.

(** Cart changes 100 apart call the filter once; one more after the
    cooldown of 500 calls it again. *)
Example cart_burst :
  FilterByBudgetComponent.filterCalls
    (foldl (FilterByBudgetComponent.step sample_format (Some ten))
       (FilterByBudgetComponent.constructor true)
       [FilterByBudgetComponent.CartChanged menu_bar Utils.init;
        FilterByBudgetComponent.Elapsed 100;
        FilterByBudgetComponent.CartChanged menu_bar Utils.modified;
        FilterByBudgetComponent.Elapsed 500;
        FilterByBudgetComponent.CartChanged menu_bar Utils.modified])
  = [Num ten; Num ten].
Proof. vm_compute. done. Qed.

(** * Further properties *)

(** ** [SalTalk.filterByPrice]: what is written, repetition, budgets *)


Section FilterByPriceMore.
Import SalTalk.
Variables (document : node).
Hypothesis ids : distinct_ids document.
Hypothesis apart : items_apart document.

Lemma visibleProducts_same_display σ1 σ2 c :
  (∀ e, e ∈ querySelectorAll item_selector c → display σ1 e = display σ2 e) →
  visibleProducts σ1 c = visibleProducts σ2 c.
Proof.
  unfold visibleProducts; intros Heq.
  induction (querySelectorAll item_selector c) as [|a l IH]; [done|].
  rewrite !filter_cons.
  assert (display σ1 a = display σ2 a) as Ha by (apply Heq; left).
  assert (∀ e, e ∈ l → display σ1 e = display σ2 e) as Hl
    by (intros e He; apply Heq; by right).
  rewrite Ha; destruct (decide _); simpl; by rewrite (IH Hl).
Qed.

(** The pass writes the cells of the items and containers of the page
    only. *)
Lemma filterByPrice_other maxPrice σ j :
  (∀ e, e ∈ descendants document → nid e = j →
        ¬ matches item_selector e ∧ ¬ matches container_selector e) →
  filterByPrice maxPrice document σ !! j = σ !! j.
Proof.
  intros Hj. unfold filterByPrice.
  rewrite foldl_untouched; [|apply filter_container_frame|].
  - apply foldl_untouched; [apply filter_item_frame|].
    intros (e & -> & [Hm He]%querySelectorAll_descendant)%list_elem_of_fmap.
    by destruct (Hj e He eq_refl).
  - intros (e & -> & [Hm He]%querySelectorAll_descendant)%list_elem_of_fmap.
    by destruct (Hj e He eq_refl).
Qed.

(** A cell of the store belongs to an item of the page, to a container
    of the page, or to neither. *)
Lemma cell_cases j :
  (∃ e, e ∈ querySelectorAll item_selector document ∧ nid e = j)
  ∨ (∃ c, c ∈ querySelectorAll container_selector document ∧ nid c = j)
  ∨ (∀ e, e ∈ descendants document → nid e = j →
          ¬ matches item_selector e ∧ ¬ matches container_selector e).
Proof.
  destruct (decide (Exists (fun e => nid e = j)
                      (querySelectorAll item_selector document))) as [Hi|Hi].
  { left. apply Exists_exists in Hi as (e & He & Hid). eauto. }
  destruct (decide (Exists (fun e => nid e = j)
                      (querySelectorAll container_selector document))) as [Hc|Hc].
  { right; left. apply Exists_exists in Hc as (e & He & Hid). eauto. }
  right; right. intros e He Hid. split; intros Hm.
  - apply Hi, Exists_exists. exists e. split; [|done].
    by apply querySelectorAll_descendant.
  - apply Hc, Exists_exists. exists e. split; [|done].
    by apply querySelectorAll_descendant.
Qed.

Lemma item_display_twice maxPrice σ e :
  item_display maxPrice (filterByPrice maxPrice document σ) e
  = (match querySelector price_selector e with
     | None => display (filterByPrice maxPrice document σ) e
     | Some _ => item_display maxPrice σ e
     end).
Proof. unfold item_display. by destruct (querySelector _ _). Qed.

Lemma filterByPrice_twice_cell maxPrice σ j :
  default "" (filterByPrice maxPrice document
                (filterByPrice maxPrice document σ) !! j)
  = default "" (filterByPrice maxPrice document σ !! j).
Proof.
  set (σ' := filterByPrice maxPrice document σ).
  assert (∀ e, e ∈ querySelectorAll item_selector document →
               display (filterByPrice maxPrice document σ') e = display σ' e)
    as Hitems.
  { intros e He. rewrite (filterByPrice_item maxPrice document σ' ids apart e He).
    unfold σ'. rewrite item_display_twice.
    destruct (querySelector _ _); [|done].
    by rewrite (filterByPrice_item maxPrice document σ ids apart e He). }
  destruct (cell_cases j) as [(e & He & <-)|[(c & Hc & <-)|Hj]].
  - by apply Hitems.
  - change (display (filterByPrice maxPrice document σ') c = display σ' c).
    rewrite (filterByPrice_container maxPrice document σ' ids apart c Hc).
    pose proof (filterByPrice_container maxPrice document σ ids apart c Hc)
      as Hfirst.
    fold σ' in Hfirst. rewrite Hfirst.
    rewrite (visibleProducts_same_display
               (filterByPrice maxPrice document σ') σ' c); [done|].
    intros e [Hm He]%querySelectorAll_descendant. apply Hitems.
    apply querySelectorAll_descendant; split; [done|].
    apply querySelectorAll_descendant in Hc as [_ Hc].
    by eapply descendants_trans.
  - by rewrite (filterByPrice_other maxPrice σ' j Hj).
Qed.

End FilterByPriceMore.

(** X1. A filter pass writes [style.display] of product items and
    product containers only: a cell that belongs to no item and no
    container of the page is left as it was. *)
Theorem filterByPrice_writes_items_and_containers maxPrice document σ j :
  (∀ e, e ∈ descendants document → nid e = j →
        ¬ matches SalTalk.item_selector e
        ∧ ¬ matches SalTalk.container_selector e) →
  SalTalk.filterByPrice maxPrice document σ !! j = σ !! j.
Proof. apply filterByPrice_other. Qed.

Lemma filterByPrice_writes_items_and_containers_witness :
  SalTalk.filterByPrice (Num ten) sample_page sample_style !! 21%nat
  = sample_style !! 21%nat.
Proof.
  apply (filterByPrice_writes_items_and_containers (Num ten) sample_page
           sample_style 21%nat).
  intros e He Hid. apply list_elem_of_In in He. vm_compute in He.
  repeat (destruct He as [<-|He]; [vm_compute in Hid; try discriminate Hid;
                                   vm_compute; tauto|]).
  destruct He.
Defined.

(** X2. Running the filter pass a second time with the same budget
    changes the display of no node. *)
Theorem filterByPrice_idempotent maxPrice document σ n :
  distinct_ids document → SalTalk.items_apart document →
  display (SalTalk.filterByPrice maxPrice document
             (SalTalk.filterByPrice maxPrice document σ)) n
  = display (SalTalk.filterByPrice maxPrice document σ) n.
Proof. intros ids apart. by apply filterByPrice_twice_cell. Qed.

Lemma filterByPrice_idempotent_witness :
  display (SalTalk.filterByPrice (Num ten) sample_page
             (SalTalk.filterByPrice (Num ten) sample_page sample_style))
          (product 40 "N/A")
  = display (SalTalk.filterByPrice (Num ten) sample_page sample_style)
            (product 40 "N/A").
Proof.
  apply (filterByPrice_idempotent (Num ten) sample_page sample_style
           (product 40 "N/A")).
  - unfold distinct_ids. by_computation.
  - unfold SalTalk.items_apart. by_computation.
Defined.

Section FilterByPriceBudgets.
Import SalTalk.
Variables (document : node) (σ : gmap nat string).
Hypothesis ids : distinct_ids document.
Hypothesis apart : items_apart document.




End FilterByPriceBudgets.





(** ** [Utils.waitForElement]: settling *)


(** While nothing matches up to the [n]-th run of the interval callback,
    the promise is pending unless the elapsed time exceeds the timeout. *)
Lemma waitForElement_unmatched selector timeout documents n :
  (∀ j, (1 <= j <= n)%nat → querySelector selector (documents j) = None) →
  (1 <= n)%nat →
  Utils.waitForElement selector timeout documents n
  = match timeout with
    | Some t =>
        if t <? Utils.poll_interval * Z.of_nat n
        then Utils.Rejected "Timeout" else Utils.Pending
    | None => Utils.Pending
    end.
Proof.
  unfold Utils.poll_interval.
  induction n as [|n IH]; [lia|]; intros Hnone _.
  cbn [Utils.waitForElement]. rewrite Hnone by lia.
  destruct n as [|n].
  { cbn. by destruct timeout. }
  rewrite IH by (try lia; intros j Hj; apply Hnone; lia).
  unfold Utils.poll_interval. destruct timeout as [t|]; [|done].
  destruct (Z.ltb_spec t (100 * Z.of_nat (S n))); cbn [Utils.waitForElement_tick].
  - destruct (Z.ltb_spec t (100 * Z.of_nat (S (S n)))); [done|lia].
  - done.
Qed.



(** X6. If the element is first found by the [k]-th run of the interval
    callback, the promise is resolved with it provided the run before
    was not past the (non-negative) timeout, or there is no timeout: the
    element is
    looked for before the timeout is tested, so an element that appears
    on the very run that would time out still resolves.  Otherwise the
    promise is rejected. *)
Theorem waitForElement_first_match selector timeout documents k e :
  (∀ t, timeout = Some t → 0 <= t) →
  (1 <= k)%nat →
  (∀ j, (1 <= j < k)%nat → querySelector selector (documents j) = None) →
  querySelector selector (documents k) = Some e →
  Utils.waitForElement selector timeout documents k
  = match timeout with
    | Some t =>
        if t <? Utils.poll_interval * (Z.of_nat k - 1)
        then Utils.Rejected "Timeout" else Utils.Resolved e
    | None => Utils.Resolved e
    end.
Proof.
  intros Hpos Hk Hnone Hsome.
  destruct k as [|k]; [lia|]. cbn [Utils.waitForElement]. rewrite Hsome.
  destruct k as [|k].
  { cbn. destruct timeout as [t|]; [|done].
    specialize (Hpos t eq_refl). unfold Utils.poll_interval.
    destruct (Z.ltb_spec t (100 * (Z.of_nat 1 - 1))); [lia|done]. }
  rewrite waitForElement_unmatched by (try lia; intros j Hj; apply Hnone; lia).
  replace (Z.of_nat (S (S k)) - 1) with (Z.of_nat (S k)) by lia.
  destruct timeout as [t|]; [|done].
  by destruct (_ <? _).
Qed.

Lemma waitForElement_first_match_witness :
  Utils.waitForElement SalTalk.item_selector (Some 0)
    (fun k => if (k <? 2)%nat then empty_body else sample_page) 2
  = Utils.Rejected "Timeout".
Proof.
  apply (waitForElement_first_match SalTalk.item_selector (Some 0)
           (fun k => if (k <? 2)%nat then empty_body else sample_page) 2
           (product 10 "$12.00")).
  - intros t [= <-]. lia.
  - lia.
  - intros j Hj. assert (j = 1%nat) as -> by lia. reflexivity.
  - reflexivity.
Defined.

Lemma first_settled_found p n fuel : ∀ k,
  (k <= n < k + fuel)%nat →
  (∀ j, (k <= j < n)%nat → Utils.is_settled (p j) = false) →
  Utils.is_settled (p n) = true →
  Utils.first_settled p k fuel = Some n.
Proof.
  induction fuel as [|fuel IH]; intros k Hk Hbefore Hn; [lia|].
  cbn [Utils.first_settled].
  destruct (decide (k = n)) as [->|Hne]; [by rewrite Hn|].
  rewrite Hbefore by lia. apply IH; [lia| |done].
  intros j Hj. apply Hbefore. lia.
Qed.

(** X7. While nothing matches, [waitForElement] with a timeout [t >= 0]
    fails at the first multiple of 100 that is greater than [t]: later
    than [t], and at most 100 later. *)
Theorem waitForElement_timeout_window selector documents t fuel :
  (∀ k, querySelector selector (documents k) = None) →
  0 <= t →
  (Z.to_nat (t / 100) + 1 <= fuel)%nat →
  Utils.settle_time selector (Some t) documents fuel
  = Some (100 * (t / 100 + 1))
  ∧ t < 100 * (t / 100 + 1) <= t + 100.
Proof.
  intros Hnone Ht Hfuel.
  pose proof (Z.div_mod t 100 ltac:(lia)) as Hdiv.
  pose proof (Z.mod_pos_bound t 100 ltac:(lia)) as Hmod.
  assert (0 <= t / 100) as Hq by (apply Z.div_pos; lia).
  split; [|lia].
  unfold Utils.settle_time.
  rewrite (first_settled_found _ (Z.to_nat (t / 100) + 1)).
  - cbn [fmap option_fmap option_map]. unfold Utils.poll_interval.
    f_equal. lia.
  - lia.
  - intros j Hj. rewrite waitForElement_unmatched by (done || lia).
    unfold Utils.poll_interval.
    destruct (Z.ltb_spec t (100 * Z.of_nat j)); [lia|done].
  - rewrite waitForElement_unmatched by (done || lia).
    unfold Utils.poll_interval.
    destruct (Z.ltb_spec t (100 * Z.of_nat (Z.to_nat (t / 100) + 1)));
      [done|lia].
Qed.

Lemma waitForElement_timeout_window_witness :
  Utils.settle_time absent_selector (Some 250) still_page 5
  = Some (100 * (250 / 100 + 1))
  ∧ 250 < 100 * (250 / 100 + 1) <= 250 + 100.
Proof.
  apply (waitForElement_timeout_window absent_selector still_page 250 5).
  - intros k. vm_compute. reflexivity.
  - lia.
  - vm_compute. lia.
Defined.

(** ** [Utils.urlWatcher]: a whole run *)

Lemma default_last_cons {A} (d x : A) (l : list A) :
  default d (last (x :: l)) = default x (last l).
Proof. rewrite last_cons. by destruct (last l). Qed.

Lemma urlWatcher_run_from hrefs : ∀ prev acts,
  foldl (fun '(prev, acts) href =>
           let '(prev', acts') := Utils.urlWatcher href prev in
           (prev', acts ++ acts'))
        (prev, acts) hrefs
  = (default prev (last hrefs),
     acts ++ (foldl (fun '(prev, acts) href =>
                       let '(prev', acts') := Utils.urlWatcher href prev in
                       (prev', acts ++ acts'))
                    (prev, []) hrefs).2).
Proof.
  induction hrefs as [|href hrefs IH]; intros prev acts; cbn [foldl].
  - by rewrite app_nil_r.
  - destruct (decide (href = prev)) as [->|Hne].
    + rewrite urlWatcher_unchanged, !app_nil_r.
      by rewrite IH, default_last_cons.
    + rewrite urlWatcher_changed by done. cbn [app].
      rewrite (IH href (acts ++ _)), (IH href [_; _]). cbn [snd].
      by rewrite <- app_assoc, default_last_cons.
Qed.

Lemma urlWatcher_chain_from hrefs : ∀ prev,
  url_chain prev
    (url_callbacks
       (foldl (fun '(prev, acts) href =>
                 let '(prev', acts') := Utils.urlWatcher href prev in
                 (prev', acts ++ acts'))
              (prev, []) hrefs).2).
Proof.
  induction hrefs as [|href hrefs IH]; intros prev; cbn [foldl]; [done|].
  destruct (decide (href = prev)) as [->|Hne].
  - rewrite urlWatcher_unchanged. apply IH.
  - rewrite urlWatcher_changed by done. cbn [app].
    rewrite urlWatcher_run_from. cbn [snd app].
    change (url_chain prev ((href, prev) :: url_callbacks
      (foldl (fun '(prev, acts) href =>
                let '(prev', acts') := Utils.urlWatcher href prev in
                (prev', acts ++ acts')) (href, []) hrefs).2)).
    cbn [url_chain]. by repeat split.
Qed.

(** X8. Over any run of mutation notifications, the URL watcher ends
    with the location of the last notification stored, and its callback
    calls form a chain: the first reports a change from the empty
    location, and each later one reports a change from the location the
    call before reported, to a different location. *)
Theorem urlWatcher_run_chain hrefs :
  (Utils.urlWatcher_run hrefs).1 = default Utils.initial_previousUrl (last hrefs)
  ∧ url_chain Utils.initial_previousUrl
      (url_callbacks (Utils.urlWatcher_run hrefs).2).
Proof.
  unfold Utils.urlWatcher_run. split.
  - by rewrite urlWatcher_run_from.
  - apply urlWatcher_chain_from.
Qed.

(** ** [Utils.debounce] and [Utils.debounceLeading]: bursts *)

Lemma trailing_burst_pending {A S} (func : A -> S -> S) wait calls : ∀ a s,
  Forall (fun call : Z * A => call.1 < wait) calls →
  trailing_burst func wait calls (Some (wait, a), s)
  = (Some (wait, default a (last (snd <$> calls))), s).
Proof.
  induction calls as [|[dt args] calls IH]; intros a s Hall; [done|].
  apply Forall_cons in Hall as [Hdt Hall]. cbn [fst] in Hdt.
  unfold trailing_burst in *. cbn [foldl Utils.debounce_elapse].
  destruct (Z.leb_spec wait dt); [lia|]. cbn [Utils.debounce].
  rewrite IH by done. by rewrite fmap_cons, default_last_cons.
Qed.

(** X9. Trailing debounce: in a burst of calls that starts with no
    timeout pending and whose calls each come less than [wait] after the
    one before, no call runs [func]; once [wait] has passed after the
    last call, [func] runs exactly once, with the arguments of the last
    call. *)
Theorem debounce_trailing_burst {A S} (func : A -> S -> S) wait
    dt0 (args0 : A) rest s d :
  Forall (fun call : Z * A => call.1 < wait) rest →
  wait <= d →
  let last_args := default args0 (last (snd <$> rest)) in
  trailing_burst func wait ((dt0, args0) :: rest) (None, s)
  = (Some (wait, last_args), s)
  ∧ Utils.debounce_elapse func d
      (trailing_burst func wait ((dt0, args0) :: rest) (None, s))
    = (None, func last_args s).
Proof.
  intros Hall Hd last_args.
  assert (trailing_burst func wait ((dt0, args0) :: rest) (None, s)
          = (Some (wait, last_args), s)) as ->.
  { unfold trailing_burst. cbn [foldl Utils.debounce_elapse Utils.debounce].
    by apply trailing_burst_pending. }
  split; [done|]. cbn [Utils.debounce_elapse].
  destruct (Z.leb_spec wait d); [done|lia].
Qed.

Lemma debounce_trailing_burst_witness :
  let func := fun (a : string) (log : list string) => log ++ [a] in
  trailing_burst func 500 [(0, "a"); (100, "b"); (499, "c")] (None, [])
  = (Some (500, "c"), [])
  ∧ Utils.debounce_elapse func 500
      (trailing_burst func 500 [(0, "a"); (100, "b"); (499, "c")] (None, []))
    = (None, ["c"]).
Proof.
  apply (debounce_trailing_burst (fun (a : string) (log : list string) => log ++ [a])
           500 0 "a" [(100, "b"); (499, "c")] [] 500).
  - apply (bool_decide_unpack _). vm_compute. exact I.
  - lia.
Defined.

(** X10. Leading debounce: in a burst that starts idle and whose calls
    each come less than the cooldown after the one before, however long
    the burst lasts, the function runs once, with the arguments of the
    first call. *)
Theorem debounceLeading_burst {A} (c dt0 : Z) (args0 : A) rest :
  Forall (fun call : Z * A => call.1 < c) rest →
  burst c ((dt0, args0) :: rest) = (Some c, [args0]).
Proof.
  intros Hall. unfold burst. cbn [foldl Utils.elapse fst snd].
  cbn [Utils.debounceLeading app]. by apply burst_suppressed.
Qed.

Lemma debounceLeading_burst_witness :
  burst 500 [(0, "a"); (400, "b"); (400, "c"); (400, "d")] = (Some 500, ["a"]).
Proof.
  apply (debounceLeading_burst 500 0 "a" [(400, "b"); (400, "c"); (400, "d")]).
  apply (bool_decide_unpack _). vm_compute. exact I.
Defined.

(** ** [Utils.elementWatcher]: set-up, batches and runs *)

Section ElementWatcherRuns.
Import Utils.
Variables (selector : selector) (events : list event).

Lemma elementWatcher_calls_loop l : ∀ w,
  calls
    (foldl (fun w node =>
              let w := if includes events init then callback node init w else w in
              if includes events modified then addModifiedObserver node w else w)
           w l)
  = calls w ++ (if includes events init
                then (fun n => (n, init)) <$> l else []).
Proof.
  induction l as [|x l IH]; intros w; cbn [foldl].
  - destruct (includes events init); by rewrite app_nil_r.
  - rewrite IH.
    destruct (includes events init), (includes events modified); cbn;
      by rewrite <- ?app_assoc.
Qed.

Lemma elementWatcher_observers_any l : ∀ w,
  observers
    (foldl (fun w node =>
              let w := if includes events init then callback node init w else w in
              if includes events modified then addModifiedObserver node w else w)
           w l)
  = observers w ++ (if includes events modified then l else []).
Proof.
  induction l as [|x l IH]; intros w; cbn [foldl].
  - destruct (includes events modified); by rewrite app_nil_r.
  - rewrite IH.
    destruct (includes events init), (includes events modified); cbn;
      by rewrite <- ?app_assoc.
Qed.

(** The loop over the added nodes of one record. *)
Lemma walk_added_nodes nodes : ∀ w,
  calls (foldl (walk_added selector events) w nodes)
  = calls w ++ (if includes events added
                then nodes ≫= (fun node =>
                       replicate (matching_below selector node) (node, added))
                else [])
  ∧ observers (foldl (walk_added selector events) w nodes)
    = observers w ++ (if includes events modified
                      then nodes ≫= (fun node =>
                             replicate (matching_below selector node) node)
                      else []).
Proof.
  induction nodes as [|x nodes IH]; intros w; cbn [foldl].
  - destruct (includes events added), (includes events modified);
      by rewrite !app_nil_r.
  - destruct (IH (walk_added selector events w x)) as [-> ->].
    destruct (walk_added_spec selector events w x) as [-> ->].
    destruct (includes events added), (includes events modified);
      rewrite ?bind_cons, ?app_nil_r, <- ?app_assoc; done.
Qed.

Lemma added_observer_spec mutations : ∀ w,
  calls (added_observer selector events mutations w)
  = calls w ++ (if includes events added
                then inserted_nodes mutations ≫= (fun node =>
                       replicate (matching_below selector node) (node, added))
                else [])
  ∧ observers (added_observer selector events mutations w)
    = observers w ++ (if includes events modified
                      then inserted_nodes mutations ≫= (fun node =>
                             replicate (matching_below selector node) node)
                      else []).
Proof.
  unfold added_observer, inserted_nodes.
  induction mutations as [|m mutations IH]; intros w.
  - cbn. destruct (includes events added), (includes events modified);
      by rewrite !app_nil_r.
  - rewrite filter_cons, bind_cons.
    destruct (decide (type m = childList)) as [Hm|Hm].
    + cbn [foldl]. destruct (IH (foldl (walk_added selector events) w
                                   (addedNodes m))) as [-> ->].
      destruct (walk_added_nodes (addedNodes m) w) as [-> ->].
      destruct (includes events added), (includes events modified);
        rewrite ?bind_app, ?app_nil_r, <- ?app_assoc; done.
    + apply IH.
Qed.

Lemma modified_observers_spec target w :
  observers (modified_observers target w) = observers w
  ∧ calls (modified_observers target w)
    = calls w ++ ((fun e => (e, modified))
                    <$> filter (fun e => observes e target) (observers w)).
Proof. apply modified_loop. Qed.

Lemma includes_true e : includes events e = true → e ∈ events.
Proof. unfold includes. by intros ?%bool_decide_eq_true. Qed.

Lemma includes_false e : includes events e = false → e ∉ events.
Proof. unfold includes. by intros ?%bool_decide_eq_false. Qed.

Lemma watcher_ok_setup body : watcher_ok events (elementWatcher selector events body).
Proof.
  unfold watcher_ok, elementWatcher.
  rewrite elementWatcher_calls_loop, elementWatcher_observers_any. cbn [calls observers app].
  split.
  - intros n e. destruct (includes events init) eqn:Hi; [|by intros ?%elem_of_nil].
    intros (x & [= -> ->] & _)%list_elem_of_fmap.
    by apply includes_true.
  - intros Hm. destruct (includes events modified) eqn:Hi; [|done].
    by apply includes_true in Hi.
Qed.

Lemma watcher_ok_notify w n :
  watcher_ok events w → watcher_ok events (notify selector events w n).
Proof.
  intros [Hcalls Hobs]. destruct n as [mutations|target]; cbn [notify].
  - destruct (added_observer_spec mutations w) as [Hc Ho].
    split.
    + intros n e. rewrite Hc, elem_of_app. intros [Hin|Hin]; [by apply (Hcalls n)|].
      destruct (includes events added) eqn:Hi; [|by apply elem_of_nil in Hin].
      apply list_elem_of_bind in Hin as (x & Hin & _). cbn beta in Hin.
      apply elem_of_replicate in Hin as [[= -> ->] _].
      by apply includes_true.
    + intros Hm. rewrite Ho, (Hobs Hm).
      destruct (includes events modified) eqn:Hi; [|done].
      by apply includes_true in Hi.
  - destruct (modified_observers_spec target w) as [Ho Hc].
    split.
    + intros n e. rewrite Hc, elem_of_app. intros [Hin|Hin]; [by apply (Hcalls n)|].
      apply list_elem_of_fmap in Hin as (x & [= -> ->] & Hx).
      destruct (decide (modified ∈ events)) as [|Hm]; [done|].
      rewrite (Hobs Hm) in Hx. by apply elem_of_nil in Hx.
    + intros Hm. by rewrite Ho, (Hobs Hm).
Qed.

End ElementWatcherRuns.

(** X11. Set-up of an element watcher: when "init" is requested the
    callback is called once for each node of the body that matches, in
    document order, and not at all otherwise; when "modified" is
    requested exactly these nodes get a per-node observer, and none
    otherwise. *)
Theorem elementWatcher_setup selector events body :
  Utils.calls (Utils.elementWatcher selector events body)
  = (if Utils.includes events Utils.init
     then (fun n => (n, Utils.init)) <$> querySelectorAll selector body
     else [])
  ∧ Utils.observers (Utils.elementWatcher selector events body)
    = (if Utils.includes events Utils.modified
       then querySelectorAll selector body else []).
Proof.
  unfold Utils.elementWatcher.
  by rewrite elementWatcher_calls_loop, elementWatcher_observers_any.
Qed.

(** X12. One batch of mutation records: records that are not of type
    [childList] are ignored; when "added" is requested, each inserted
    node is reported once per matching element strictly below it, in
    the order of the records, and nothing is reported otherwise; when
    "modified" is requested the inserted node gets as many per-node
    observers. *)
Theorem added_observer_batch selector events mutations w :
  Utils.calls (Utils.added_observer selector events mutations w)
  = Utils.calls w
    ++ (if Utils.includes events Utils.added
        then inserted_nodes mutations ≫= (fun node =>
               replicate (matching_below selector node) (node, Utils.added))
        else [])
  ∧ Utils.observers (Utils.added_observer selector events mutations w)
    = Utils.observers w
      ++ (if Utils.includes events Utils.modified
          then inserted_nodes mutations ≫= (fun node =>
                 replicate (matching_below selector node) node)
          else []).
Proof. apply added_observer_spec. Qed.

(** X13. Over set-up followed by any run of batches for the observer of
    additions and of changes for the per-node observers, every call of
    the callback has a kind that was requested, and without "modified"
    among the requested kinds no per-node observer is ever created. *)
Theorem elementWatcher_reports_requested_kinds selector events body
    (notifications : list notification) :
  watcher_ok events
    (foldl (notify selector events)
           (Utils.elementWatcher selector events body) notifications).
Proof.
  assert (∀ l w, watcher_ok events w →
                 watcher_ok events (foldl (notify selector events) w l)) as Hrun.
  { induction l as [|n l IH]; intros w Hw; [done|].
    cbn [foldl]. by apply IH, watcher_ok_notify. }
  apply Hrun, watcher_ok_setup.
Qed.

Lemma filter_none {A} (P : A → Prop) `{∀ x, Decision (P x)} (l : list A) :
  (∀ x, x ∈ l → ¬ P x) → filter P l = [].
Proof.
  induction l as [|x l IH]; intros Hnone; [done|].
  rewrite filter_cons. destruct (decide (P x)) as [Hx|_].
  - by destruct (Hnone x); [left|].
  - apply IH. intros y Hy. apply Hnone. by right.
Qed.

(** X14. Delivery of a change: a change of a node that is neither an
    observed element nor below one calls nothing and leaves the watcher
    as it is; a change of an observed element, or of a node below it,
    calls the callback with the observed element and "modified". *)
Theorem modified_observers_subtree target w :
  ((∀ e, e ∈ Utils.observers w → Utils.observes e target = false) →
   Utils.modified_observers target w = w)
  ∧ (∀ e, e ∈ Utils.observers w →
          nid target = nid e ∨ target ∈ descendants e →
          (e, Utils.modified) ∈ Utils.calls (Utils.modified_observers target w)).
Proof.
  destruct (modified_observers_spec target w) as [Ho Hc]. split.
  - intros Hnone.
    assert (filter (fun e => Utils.observes e target) (Utils.observers w) = [])
      as Hnil.
    { apply filter_none. intros e He. rewrite (Hnone e He). by intros []. }
    rewrite Hnil, app_nil_r in Hc.
    destruct (Utils.modified_observers target w) as [c o], w as [c' o'].
    cbn in Ho, Hc. by subst.
  - intros e He Hbelow. rewrite Hc. apply elem_of_app; right.
    apply list_elem_of_fmap. exists e. split; [done|].
    apply list_elem_of_filter. split; [|done].
    unfold Utils.observes. destruct Hbelow as [Heq|Hin].
    + by rewrite (bool_decide_eq_true_2 _ Heq).
    + rewrite orb_True. right. apply bool_decide_pack.
      apply list_elem_of_In, in_map, list_elem_of_In, Hin.
Qed.

(** ** [FilterByBudgetComponent]: runs *)

Section ComponentRuns.
Import FilterByBudgetComponent.
Variable formatCurrencyValue : number -> string.

Lemma component_ok_applyFilter remainingBudget st :
  (∀ c, ui st = Some c → isChecked c = enabled st) →
  component_ok formatCurrencyValue
    (applyFilter formatCurrencyValue remainingBudget st).
Proof.
  intros Hchecked. split.
  - cbn. by intros ->.
  - intros c. cbn. destruct (ui st) as [c0|] eqn:Hui; [|done].
    intros [= <-]. cbn. split; [by apply Hchecked|done].
Qed.

Lemma component_ok_step remainingBudget st i :
  component_ok formatCurrencyValue st →
  component_ok formatCurrencyValue (step formatCurrencyValue remainingBudget st i).
Proof.
  intros [Hbudget Hui]. destruct i as [url prev|elem|elem ev|elem ev|checked|dt].
  - done.
  - split; [done|]. intros c [= <-]. done.
  - cbn [step]. unfold products_callback, Utils.debounceLeading.
    by destruct (productsTimer st).
  - cbn [step]. unfold cart_callback, Utils.debounceLeading.
    destruct (cartTimer st); [done|].
    destruct (component_ok_applyFilter remainingBudget st) as [Hb Hu].
    { intros c Hc. by apply Hui. }
    done.
  - cbn [step]. unfold checkbox_changed.
    apply component_ok_applyFilter. intros c. cbn.
    destruct (ui st); [|done]. by intros [= <-].
  - done.
Qed.

Lemma filterCalls_step remainingBudget st i :
  (length (filterCalls (step formatCurrencyValue remainingBudget st i))
   <= length (filterCalls st) + (if triggers_filter i then 1 else 0))%nat.
Proof.
  destruct st as [en u b pt ct calls].
  destruct i as [url prev|elem|elem ev|elem ev|checked|dt];
    cbn [triggers_filter step url_callback menu_callback filterCalls
         set_cartTimer set_productsTimer].
  - lia.
  - lia.
  - unfold products_callback, Utils.debounceLeading. cbn.
    destruct pt; cbn; lia.
  - unfold cart_callback, Utils.debounceLeading. cbn.
    destruct ct; cbn; rewrite ?length_app; cbn; lia.
  - unfold checkbox_changed, applyFilter. cbn. rewrite length_app. cbn. lia.
  - lia.
Qed.

End ComponentRuns.

(** X15. In every state the component reaches, from its construction
    through any inputs: when the filter is off the budget is [null], and
    the check box on the page, if there is one, is ticked exactly when
    the filter is on and carries the label of the current budget. *)
Theorem component_state_invariant formatCurrencyValue defaultState inputs :
  component_ok formatCurrencyValue
    (component_run formatCurrencyValue defaultState inputs).
Proof.
  unfold component_run.
  assert (∀ l st, component_ok formatCurrencyValue st →
    component_ok formatCurrencyValue
      (foldl (fun st '(remainingBudget, i) =>
                FilterByBudgetComponent.step formatCurrencyValue
                  remainingBudget st i) st l)) as Hrun.
  { induction l as [|[rb i] l IH]; intros st Hst; [done|].
    cbn [foldl]. by apply IH, component_ok_step. }
  apply Hrun. by split.
Qed.

(** X16. Over any run, the filter is called at most once per change of
    the cart or of the check box: changes of the URL, of the menu and of
    the product list, and the passing of time, never call it. *)
Theorem component_filter_calls_bound formatCurrencyValue defaultState inputs :
  (length (FilterByBudgetComponent.filterCalls
             (component_run formatCurrencyValue defaultState inputs))
   <= length (filter (fun x => triggers_filter x.2) inputs))%nat.
Proof.
  unfold component_run.
  assert (∀ l st,
    (length (FilterByBudgetComponent.filterCalls
       (foldl (fun st '(remainingBudget, i) =>
                 FilterByBudgetComponent.step formatCurrencyValue
                   remainingBudget st i) st l))
     <= length (FilterByBudgetComponent.filterCalls st)
        + length (filter (fun x => triggers_filter x.2) l))%nat) as Hrun.
  { induction l as [|[rb i] l IH]; intros st; [cbn; lia|].
    cbn [foldl]. etrans; [apply IH|].
    pose proof (filterCalls_step formatCurrencyValue rb st i) as Hstep.
    rewrite filter_cons. cbn [snd].
    destruct (triggers_filter i).
    - rewrite decide_True by done. cbn [length].
      change (if true then 1 else 0)%nat with 1%nat in Hstep. lia.
    - rewrite decide_False by (by intros []).
      change (if false then 1 else 0)%nat with 0%nat in Hstep. lia. }
  apply (Hrun inputs (FilterByBudgetComponent.constructor defaultState)).
Qed.

(** ** [SalTalk.parseUrl] *)






Lemma split_single sep s : contains sep s = false → split sep s = [s].
Proof.
  induction s as [|c s IH]; [done|]. cbn [contains split].
  intros [Hc Hs]%orb_false_elim. by rewrite Hc, (IH Hs).
Qed.

(** X17. [parseUrl] keeps the path as the page, and gives no parameters
    at all exactly when the path is not "/" or the query has no
    non-empty [date] or no non-empty [shippingTime]; otherwise the
    meal is the [shippingTime] as it stands. *)
Theorem parseUrl_params_empty_iff urlObj :
  (SalTalk.parseUrl urlObj).1 = SalTalk.pathname urlObj
  ∧ ((SalTalk.parseUrl urlObj).2 = ∅
     ↔ SalTalk.pathname urlObj ≠ "/"
       ∨ default "" (SalTalk.searchParams_get "date" urlObj) = ""
       ∨ default "" (SalTalk.searchParams_get "shippingTime" urlObj) = "")
  ∧ ((SalTalk.parseUrl urlObj).2 ≠ ∅ →
     SalTalk.PString <$> SalTalk.searchParams_get "shippingTime" urlObj
     = (SalTalk.parseUrl urlObj).2 !! "meal").
Proof.
  unfold SalTalk.parseUrl. cbn [fst snd]. split; [done|].
  destruct (String.eqb_spec (SalTalk.pathname urlObj) "/") as [Hp|Hp];
    [|split; [split; [by left|done]|done]].
  destruct (SalTalk.searchParams_get "date" urlObj) as [date|];
    [|split; [split; [by right; left|done]|done]].
  destruct (SalTalk.searchParams_get "shippingTime" urlObj) as [meal|];
    [|split; [split; [by right; right|done]|done]].
  cbn [default].
  destruct (String.eqb_spec date "") as [Hd|Hd];
    [cbn; split; [split; [by right; left|done]|done]|].
  destruct (String.eqb_spec meal "") as [Hm|Hm];
    [cbn; split; [split; [by right; right|done]|done]|].
  cbn [negb andb]. split; [split|].
  - intros Hempty. exfalso.
    apply (f_equal (fun m : gmap string SalTalk.param => m !! "meal")) in Hempty.
    by rewrite lookup_insert_eq, lookup_empty in Hempty.
  - by intros [?|[?|?]].
  - intros _. by rewrite lookup_insert_eq.
Qed.



(** X19. A non-empty date without any dash still gives parameters: the
    year is read from the whole date, and the month and the day, which
    have no piece to be read from, are [NaN]. *)
Theorem parseUrl_date_without_dash urlObj date meal :
  SalTalk.pathname urlObj = "/" →
  SalTalk.searchParams_get "date" urlObj = Some date →
  SalTalk.searchParams_get "shippingTime" urlObj = Some meal →
  date ≠ "" → meal ≠ "" →
  contains "-" date = false →
  (SalTalk.parseUrl urlObj).2 !! "year" = Some (SalTalk.PNumber (parseInt date))
  ∧ (SalTalk.parseUrl urlObj).2 !! "month" = Some (SalTalk.PNumber NaN)
  ∧ (SalTalk.parseUrl urlObj).2 !! "date" = Some (SalTalk.PNumber NaN).
Proof.
  intros Hp Hdate Hmeal Hd Hm Hdash.
  unfold SalTalk.parseUrl. cbn [snd].
  rewrite Hp, String.eqb_refl, Hdate, Hmeal.
  destruct (String.eqb_spec date "") as [|_]; [done|].
  destruct (String.eqb_spec meal "") as [|_]; [done|]. cbn [negb andb].
  rewrite (split_single _ _ Hdash).
  unfold SalTalk.parseInt_piece. cbn [lookup list_lookup default from_option id].
  change (parseInt "undefined") with NaN.
  split; [|split]; by rewrite !lookup_insert_ne, lookup_insert_eq by done.
Qed.

Lemma parseUrl_date_without_dash_witness :
  let urlObj :=
    {| SalTalk.pathname := "/";
       SalTalk.searchParams := [("date", "20230516"); ("shippingTime", "Lunch")] |} in
  (SalTalk.parseUrl urlObj).2 !! "year"
  = Some (SalTalk.PNumber (parseInt "20230516"))
  ∧ (SalTalk.parseUrl urlObj).2 !! "month" = Some (SalTalk.PNumber NaN)
  ∧ (SalTalk.parseUrl urlObj).2 !! "date" = Some (SalTalk.PNumber NaN).
Proof.
  apply (parseUrl_date_without_dash
           {| SalTalk.pathname := "/";
              SalTalk.searchParams :=
                [("date", "20230516"); ("shippingTime", "Lunch")] |}
           "20230516" "Lunch"); try reflexivity; discriminate.
Defined.

(** ** Reading a price: [parseFloat(text.replace("$", ""))] *)









(** ** [CheckBoxComponent] on the page *)

Section CheckBoxOnPage.
Import CheckBox.

Lemma replace_absent (old n : nat) (l : list nat) :
  (∀ i, i ∈ l → i ≠ old) →
  (fun i => if decide (i = old) then n else i) <$> l = l.
Proof.
  induction l as [|x l IH]; intros Hl; [done|].
  rewrite fmap_cons, IH by (intros i Hi; apply Hl; by right).
  destruct (decide (x = old)) as [Hx|_]; [|done].
  by destruct (Hl x); [left|].
Qed.

Lemma filter_absent (old : nat) (l : list nat) :
  (∀ i, i ∈ l → i ≠ old) → filter (fun i => i ≠ old) l = l.
Proof.
  induction l as [|x l IH]; intros Hl; [done|].
  rewrite filter_cons, decide_True by (apply Hl; left).
  by rewrite IH by (intros i Hi; apply Hl; by right).
Qed.

Lemma children_replaceWith old n pg q :
  children (replaceWith old n pg) q
  = (fun i => if decide (i = old) then n else i) <$> children pg q.
Proof.
  unfold children, replaceWith; cbn [kids]. rewrite lookup_fmap.
  by destruct (kids pg !! q).
Qed.

Lemma children_remove_node old pg q :
  children (remove_node old pg) q = filter (fun i => i ≠ old) (children pg q).
Proof.
  unfold children, remove_node; cbn [kids]. rewrite lookup_fmap.
  by destruct (kids pg !! q).
Qed.

Lemma children_prepend p n pg q :
  children (prepend p n pg) q
  = if decide (p = q) then n :: children pg p else children pg q.
Proof.
  unfold children at 1, prepend; cbn [kids]. rewrite lookup_insert.
  by destruct (decide (p = q)).
Qed.

(** What [#display] does to a component that was rendered before. *)
Lemma display_rendered c pg old :
  rendered c = Some old →
  (∀ q, children (display (c, pg)).2 q
        = (fun i => if decide (i = old) then fresh pg else i) <$> children pg q)
  ∧ (display (c, pg)).1
    = {| parent := parent c; isChecked := isChecked c;
         labelText := labelText c; rendered := Some (fresh pg) |}
  ∧ fresh (display (c, pg)).2 = S (fresh pg)
  ∧ attrs (display (c, pg)).2 !! fresh pg = Some (isChecked c, labelText c).
Proof.
  intros Hr. unfold display, render. rewrite Hr. cbn [fst snd].
  repeat split.
  - intros q. by rewrite children_replaceWith.
  - cbn. by rewrite lookup_insert_eq.
Qed.

Variable before : page.
Hypothesis before_ok : page_ok before.

Lemma before_children_old q i n :
  (fresh before <= n)%nat → i ∈ children before q → i ≠ n.
Proof. intros Hn Hi%before_ok. lia. Qed.

Lemma mounted_constructor p d t :
  mounted before (constructor p d t before).
Proof.
  exists (fresh before). cbn. repeat split.
  - lia.
  - lia.
  - rewrite children_prepend. by rewrite decide_True.
  - intros q Hq. rewrite children_prepend. by rewrite decide_False.
  - by rewrite lookup_insert_eq.
Qed.

Lemma mounted_setLabel text s :
  mounted before s →
  mounted before (setLabel text s)
  ∧ parent (setLabel text s).1 = parent s.1
  ∧ isChecked (setLabel text s).1 = isChecked s.1
  ∧ labelText (setLabel text s).1 = text.
Proof.
  destruct s as [c pg]. intros (n & Hr & Hn & Hp & Hq & Ha).
  cbn [fst snd] in *. unfold setLabel.
  destruct (display_rendered
              {| parent := parent c; isChecked := isChecked c;
                 labelText := text; rendered := rendered c |} pg n Hr)
    as (Hkids & Hc & Hfresh & Hattrs).
  change (let '(c0, pg0) := (c, pg) in
          display ({| parent := parent c0; isChecked := isChecked c0;
                      labelText := text; rendered := rendered c0 |}, pg0))
    with (display ({| parent := parent c; isChecked := isChecked c;
                      labelText := text; rendered := rendered c |}, pg)).
  unfold mounted. rewrite !Hc, Hfresh.
  cbn [parent isChecked labelText rendered] in *.
  split; [|done].
  exists (fresh pg).
  repeat split; [lia|lia| | |done].
  - rewrite Hkids, Hp, fmap_cons, decide_True by done.
    rewrite replace_absent; [done|].
    intros i Hi. apply (before_children_old (parent c)); [lia|done].
  - intros q Hne. rewrite Hkids, (Hq q Hne). apply replace_absent.
    intros i Hi. apply (before_children_old q); [lia|done].
Qed.

Lemma detached_remove s : mounted before s → detached before (remove s).
Proof.
  destruct s as [c pg]. intros (n & Hr & Hn & Hp & Hq & Ha).
  cbn [fst snd] in *. unfold remove. rewrite Hr.
  split; [|exists n; by cbn].
  intros q. cbn [snd]. rewrite children_remove_node.
  destruct (decide (q = parent c)) as [->|Hne].
  - rewrite Hp, filter_cons, decide_False by (by intros []).
    apply filter_absent. intros i Hi.
    apply (before_children_old (parent c)); [lia|done].
  - rewrite (Hq q Hne). apply filter_absent. intros i Hi.
    apply (before_children_old q); [lia|done].
Qed.

Lemma detached_setLabel text s :
  detached before s → detached before (setLabel text s).
Proof.
  destruct s as [c pg]. intros [Hq (n & Hr & Hn)].
  cbn [fst snd] in *. unfold setLabel.
  destruct (display_rendered
              {| parent := parent c; isChecked := isChecked c;
                 labelText := text; rendered := rendered c |} pg n Hr)
    as (Hkids & Hc & Hfresh & _).
  change (let '(c0, pg0) := (c, pg) in
          display ({| parent := parent c0; isChecked := isChecked c0;
                      labelText := text; rendered := rendered c0 |}, pg0))
    with (display ({| parent := parent c; isChecked := isChecked c;
                      labelText := text; rendered := rendered c |}, pg)).
  unfold detached. rewrite !Hc, Hfresh.
  split; [|exists (fresh pg); cbn [rendered]; split; [done|lia]].
  intros q. rewrite Hkids, (Hq q). apply replace_absent. intros i Hi.
  apply (before_children_old q); [lia|done].
Qed.

End CheckBoxOnPage.

Lemma sample_dom_ok : page_ok sample_dom.
Proof.
  intros p i. unfold CheckBox.children, sample_dom. cbn [CheckBox.kids CheckBox.fresh].
  destruct (decide (p = 1%nat)) as [->|Hne].
  - rewrite lookup_singleton_eq. cbn. rewrite !elem_of_cons, elem_of_nil. lia.
  - rewrite lookup_singleton_ne by done. cbn. by intros ?%elem_of_nil.
Qed.

(** X21. A check box built under a node of a page shows as one [div],
    first among the children of that node, and stays so through any
    number of [setLabel]: each new rendering takes the place of the one
    before, the other children of the node and the children of every
    other node are as they were, the box is ticked as at construction,
    and it carries the last label set. *)
Theorem checkbox_relabel_in_place before p d t (texts : list string) :
  page_ok before →
  let s := foldl (fun s text => CheckBox.setLabel text s)
                 (CheckBox.constructor p d t before) texts in
  mounted before s
  ∧ CheckBox.parent s.1 = p
  ∧ CheckBox.isChecked s.1 = d
  ∧ CheckBox.labelText s.1 = default t (last texts).
Proof.
  intros Hok.
  assert (∀ l s0,
    mounted before s0 →
    let s := foldl (fun s text => CheckBox.setLabel text s) s0 l in
    mounted before s
    ∧ CheckBox.parent s.1 = CheckBox.parent s0.1
    ∧ CheckBox.isChecked s.1 = CheckBox.isChecked s0.1
    ∧ CheckBox.labelText s.1 = default (CheckBox.labelText s0.1) (last l)) as Hrun.
  { induction l as [|text l IH]; intros s0 Hs0; [done|].
    cbn [foldl]. cbn zeta.
    destruct (mounted_setLabel before Hok text s0 Hs0) as (Hm & Hp & Hc & Ht).
    destruct (IH _ Hm) as (IHm & IHp & IHc & IHt).
    rewrite IHp, IHc, IHt, Hp, Hc, Ht. by rewrite default_last_cons. }
  exact (Hrun texts (CheckBox.constructor p d t before)
           (mounted_constructor before p d t)).
Qed.

Lemma checkbox_relabel_in_place_witness :
  let s := foldl (fun s text => CheckBox.setLabel text s)
                 (CheckBox.constructor 1 true "Filter by budget" sample_dom)
                 ["Filter by budget ($15.50 available)"; "Filter by budget"] in
  mounted sample_dom s
  ∧ CheckBox.parent s.1 = 1%nat
  ∧ CheckBox.isChecked s.1 = true
  ∧ CheckBox.labelText s.1
    = default "Filter by budget"
        (last ["Filter by budget ($15.50 available)"; "Filter by budget"]).
Proof.
  apply (checkbox_relabel_in_place sample_dom 1 true "Filter by budget"
           ["Filter by budget ($15.50 available)"; "Filter by budget"]).
  exact sample_dom_ok.
Defined.

(** X22. Once a mounted check box is removed, it is under no node any
    more, and [setLabel] does not bring it back: after any number of
    [setLabel] every node has the children it had before the check box
    was built. *)
Theorem checkbox_remove_is_final before s (texts : list string) :
  page_ok before → mounted before s →
  detached before
    (foldl (fun s text => CheckBox.setLabel text s) (CheckBox.remove s) texts).
Proof.
  intros Hok Hs.
  assert (∀ l s0, detached before s0 →
    detached before (foldl (fun s text => CheckBox.setLabel text s) s0 l)) as Hrun.
  { induction l as [|text l IH]; intros s0 Hs0; [done|].
    cbn [foldl]. by apply IH, detached_setLabel. }
  by apply Hrun, detached_remove.
Qed.

Lemma checkbox_remove_is_final_witness :
  detached sample_dom
    (foldl (fun s text => CheckBox.setLabel text s)
           (CheckBox.remove (CheckBox.constructor 1 true "Filter by budget" sample_dom))
           ["Filter by budget ($15.50 available)"]).
Proof.
  apply (checkbox_remove_is_final sample_dom
           (CheckBox.constructor 1 true "Filter by budget" sample_dom)
           ["Filter by budget ($15.50 available)"]).
  - exact sample_dom_ok.
  - apply mounted_constructor.
Defined.
